(** * A sequential model of the channel-based connection pool

    The development embeds [channel.go], [conn.go] and [pool.go] of the
    [pool] package: the buffered channel of idle connections, the factory,
    the store operations [NewChannelPool], [Get], [put], [Close], [Len] and
    the handle decorator [PoolRconn] with its [Close] and [MarkUnusable].

    Every operation is run to completion before the next one starts, so the
    mutex of [channelPool] is not represented: [getRconns] is a plain read
    of the [rconns] field.  For the same reason the pool never refers to a
    closed channel: [Close] sets the field to nil before it closes and
    drains the channel it captured, and nothing else holds that channel.
    Integers of type [int] are in [Z]; the comparisons and the loop counter
    of the constructor stay far from the ends of the range. *)

From Stdlib Require Import String ZArith List Bool Lia.
Import ListNotations.

Local Open Scope Z_scope.

(** ** Data *)

(** A Go [error]: [None] is [nil], [Some msg] an error whose text is [msg]. *)
Definition error := option string.

(** [pool.go]: the sentinel error of a pool that was shut down. *)
Definition ErrClosed : error := Some "pool is closed"%string.

(** The identity of a connection owned by the external collaborator. *)
Definition Rconn := nat.

(** A value of the interface type [RpcAble]: [None] is the nil interface. *)
Definition RpcAble := option Rconn.

(** What the pool can observe of the outside: how often a factory has been
    invoked, and which underlying [Close] calls were made, oldest first. *)
Record World := mkWorld { calls : nat; closes : list Rconn }.

(** [type Factory func() (RpcAble, error)].  The outcome of an invocation
    may depend on everything that happened before it. *)
Definition Factory := World -> RpcAble * error.

(** [chan RpcAble] made by [make(chan RpcAble, n)]: its capacity and the
    values it buffers, the oldest at the head. *)
Record chanRpcAble := mkChan { cap : Z; buf : list RpcAble }.

(** [type channelPool struct]; a nil channel and a nil func are [None]. *)
Record channelPool := mkPool {
  rconns : option chanRpcAble;
  factory : option Factory
}.

(** [type PoolRconn struct]: the embedded [RpcAble] and the flag.  The
    back-reference [c] always points to the one pool of the [Store]. *)
Record PoolRconn := mkPoolRconn { rpcAble : RpcAble; unusable : bool }.

(** ** Effects *)

(** How a call ends: it returns, it panics, or it is parked for ever on a
    channel operation that can never proceed. *)
Inductive Outcome (A : Type) : Type :=
| Ret (a : A)
| Panic (msg : string)
| Blocked.

Arguments Ret {A} a.
Arguments Panic {A} msg.
Arguments Blocked {A}.

(** The pool object behind the pointer [c], and the outside world. *)
Record Store := mkStore { pool : channelPool; env : World }.

Definition M (A : Type) : Type := Store -> Outcome A * Store.

Definition ret {A : Type} (a : A) : M A := fun s => (Ret a, s).

Definition bind {A B : Type} (m : M A) (k : A -> M B) : M B :=
  fun s =>
    match m s with
    | (Ret a, s') => k a s'
    | (Panic msg, s') => (Panic msg, s')
    | (Blocked, s') => (Blocked, s')
    end.

Definition panic {A : Type} (msg : string) : M A := fun s => (Panic msg, s).

Definition block {A : Type} : M A := fun s => (Blocked, s).

Declare Scope pool_scope.
Delimit Scope pool_scope with pool.
Notation "x <- m ;; k" := (bind m (fun x => k))
  (at level 61, m at next level, right associativity) : pool_scope.
Notation "m ;; k" := (bind m (fun _ => k))
  (at level 61, right associativity) : pool_scope.
Local Open Scope pool_scope.

Definition nil_deref : string :=
  "invalid memory address or nil pointer dereference"%string.

Definition load_rconns : M (option chanRpcAble) :=
  fun s => (Ret (rconns (pool s)), s).

Definition store_rconns (ch : option chanRpcAble) : M unit :=
  fun s => (Ret tt, mkStore (mkPool ch (factory (pool s))) (env s)).

Definition load_factory : M (option Factory) :=
  fun s => (Ret (factory (pool s)), s).

Definition store_factory (f : option Factory) : M unit :=
  fun s => (Ret tt, mkStore (mkPool (rconns (pool s)) f) (env s)).

(** The world after one more factory invocation. *)
Definition note_call (w : World) : World :=
  mkWorld (S (calls w)) (closes w).

(** The world after the underlying [Close] of [r] was invoked. *)
Definition note_close (r : Rconn) (w : World) : World :=
  mkWorld (calls w) (closes w ++ [r]).

(** [f()]: calling a nil func panics. *)
Definition invoke (f : option Factory) : M (RpcAble * error) :=
  match f with
  | None => panic nil_deref
  | Some f =>
      fun s =>
        (Ret (f (env s)), mkStore (pool s) (note_call (env s)))
  end.

(** [len(ch)]; the length of a nil channel is 0. *)
Definition chan_len (ch : option chanRpcAble) : Z :=
  match ch with
  | None => 0
  | Some ch => Z.of_nat (length (buf ch))
  end.

(** [case x := <-ch:] of a [select] with a [default]: the receive is taken
    when the buffer holds a value.  [ch] is the channel the pool refers to,
    so the shortened buffer is written through to the pool. *)
Definition try_recv (ch : chanRpcAble) : M (option RpcAble) :=
  match buf ch with
  | [] => ret None
  | x :: rest => store_rconns (Some (mkChan (cap ch) rest)) ;; ret (Some x)
  end.

(** [case ch <- x:] of a [select] with a [default]: the send is taken when
    the buffer has room. *)
Definition try_send (ch : chanRpcAble) (x : RpcAble) : M bool :=
  if Z.of_nat (length (buf ch)) <? cap ch
  then store_rconns (Some (mkChan (cap ch) (buf ch ++ [x]))) ;; ret true
  else ret false.

(** [c.rconns <- x] outside a [select]: with nobody receiving, a send on a
    full or nil channel never returns. *)
Definition send (x : RpcAble) : M unit :=
  ch <- load_rconns ;;
  match ch with
  | None => block
  | Some ch =>
      if Z.of_nat (length (buf ch)) <? cap ch
      then store_rconns (Some (mkChan (cap ch) (buf ch ++ [x])))
      else block
  end.

(** ** Concrete connections, factories and stores *)

(** Connections whose underlying [Close] always returns nil. *)
Definition quiet : Rconn -> list Rconn -> error := fun _ _ => None.

(** A factory that never fails and numbers its connections. *)
Definition fresh : Factory := fun w => (Some (calls w), None).

(** The world before anything happened. *)
Definition w0 : World := mkWorld 0 [].

(** A pool of capacity 2 that holds connection 7 and has one free slot. *)
Definition one_idle : Store :=
  mkStore (mkPool (Some (mkChan 2 [Some 7%nat])) (Some fresh)) w0.

(** A pool of capacity 2 that is full. *)
Definition two_idle : Store :=
  mkStore (mkPool (Some (mkChan 2 [Some 7%nat; Some 8%nat])) (Some fresh)) w0.

(** A pool that was shut down. *)
Definition shut : Store := mkStore (mkPool None None) w0.

(** A factory whose first two calls succeed and whose later calls fail. *)
Definition flaky : Factory :=
  fun w =>
    if (calls w <? 2)%nat then (Some (calls w), None)
    else (None, Some "dial refused"%string).

Section Pool.

(** The error (or nil) that the underlying [Close] of a connection returns,
    given the underlying closes made before it. *)
Variable closeResult : Rconn -> list Rconn -> error.

(** [rconn.Close()] through the interface: a nil interface panics. *)
Definition rconn_Close (rconn : RpcAble) : M error :=
  match rconn with
  | None => panic nil_deref
  | Some r =>
      fun s =>
        (Ret (closeResult r (closes (env s))),
         mkStore (pool s) (note_close r (env s)))
  end.

(** ** [conn.go] *)

Definition wrapRconn (rconn : RpcAble) : PoolRconn :=
  mkPoolRconn rconn false.

Definition MarkUnusable (p : PoolRconn) : PoolRconn :=
  mkPoolRconn (rpcAble p) true.

(** ** [channel.go] *)

Definition getRconns : M (option chanRpcAble) := load_rconns.

Definition Get : M (option PoolRconn * error) :=
  rc <- getRconns ;;
  match rc with
  | None => ret (None, ErrClosed)
  | Some ch =>
      got <- try_recv ch ;;
      match got with
      | Some rconn =>
          match rconn with
          | None => ret (None, ErrClosed)
          | Some _ => ret (Some (wrapRconn rconn), None)
          end
      | None =>
          f <- load_factory ;;
          res <- invoke f ;;
          match snd res with
          | Some e => ret (None, Some e)
          | None => ret (Some (wrapRconn (fst res)), None)
          end
      end
  end.

Definition put (rconn : RpcAble) : M error :=
  match rconn with
  | None => ret (Some "rconn is nil. rejecting"%string)
  | Some _ =>
      rc <- load_rconns ;;
      match rc with
      | None => rconn_Close rconn
      | Some ch =>
          sent <- try_send ch rconn ;;
          if sent then ret None else rconn_Close rconn
      end
  end.

(** [for rconn := range rconns { rconn.Close() }] over a closed channel:
    the buffered values are taken in order, each result is dropped. *)
Fixpoint drain (l : list RpcAble) : M unit :=
  match l with
  | [] => ret tt
  | rconn :: rest => rconn_Close rconn ;; drain rest
  end.

Definition Close : M unit :=
  rc <- load_rconns ;;
  store_rconns None ;;
  store_factory None ;;
  match rc with
  | None => ret tt
  | Some ch => drain (buf ch)
  end.

Definition Len : M Z :=
  rc <- getRconns ;;
  ret (chan_len rc).

(** The loop of [NewChannelPool]; [n] iterations are left.  It returns the
    error of the constructor, nil when the loop ran to its end. *)
Fixpoint fill (fct : option Factory) (n : nat) : M error :=
  match n with
  | O => ret None
  | S n' =>
      res <- invoke fct ;;
      match snd res with
      | Some e =>
          Close ;;
          ret (Some ("factory is not able to fill the pool: " ++ e)%string)
      | None => send (fst res) ;; fill fct n'
      end
  end.

Definition NewChannelPool (initialCap maxCap : Z) (fct : option Factory)
    (w : World) : Outcome (option channelPool * error) * World :=
  if (initialCap <? 0) || (maxCap <=? 0) || (initialCap >? maxCap)
  then (Ret (None, Some "invalid capacity settings"%string), w)
  else
    let c := mkPool (Some (mkChan maxCap [])) fct in
    match fill fct (Z.to_nat initialCap) (mkStore c w) with
    | (Ret None, s) => (Ret (Some (pool s), None), env s)
    | (Ret (Some e), s) => (Ret (None, Some e), env s)
    | (Panic msg, s) => (Panic msg, env s)
    | (Blocked, s) => (Blocked, env s)
    end.

(** ** [conn.go]: the decorator's [Close] *)

Definition PoolRconn_Close (p : PoolRconn) : M error :=
  if unusable p
  then
    match rpcAble p with
    | Some _ => rconn_Close (rpcAble p)
    | None => ret None
    end
  else put (rpcAble p).

(** ** Client programs *)

(** One call a client can make on the pool or on a handle.  The handle of
    [OpHandleClose] is any decorator value of this pool, marked or not. *)
Inductive Op : Type :=
| OpGet
| OpPut (rconn : RpcAble)
| OpHandleClose (p : PoolRconn)
| OpClose
| OpLen.

Definition step (o : Op) : M unit :=
  match o with
  | OpGet => Get ;; ret tt
  | OpPut rconn => put rconn ;; ret tt
  | OpHandleClose p => PoolRconn_Close p ;; ret tt
  | OpClose => Close
  | OpLen => Len ;; ret tt
  end.

(** A client program runs its calls in order and ends at the first call
    that does not return. *)
Fixpoint run (ops : list Op) : M unit :=
  match ops with
  | [] => ret tt
  | o :: rest => step o ;; run rest
  end.

(** ** Predicates on stores *)

(** The connections among buffered interface values, in buffer order. *)
Fixpoint conns (l : list RpcAble) : list Rconn :=
  match l with
  | [] => []
  | Some r :: rest => r :: conns rest
  | None :: rest => conns rest
  end.

(** The channel of an open pool has capacity [k] and is not over-full. *)
Definition bounded (k : Z) (p : channelPool) : Prop :=
  match rconns p with
  | None => True
  | Some ch => cap ch = k /\ Z.of_nat (length (buf ch)) <= k
  end.

(** The idle buffer of an open pool holds no nil entry. *)
Definition no_nil (p : channelPool) : Prop :=
  match rconns p with
  | None => True
  | Some ch => ~ In None (buf ch)
  end.

(** The factory is not nil while the pool is open. *)
Definition has_factory (p : channelPool) : Prop :=
  match rconns p with
  | None => True
  | Some _ => factory p <> None
  end.

(** What one call can do to the pool object: nothing, take the head of the
    buffer, append a connection where there is room, or shut it down. *)
Inductive pool_move : channelPool -> channelPool -> Prop :=
| move_stay (p : channelPool) : pool_move p p
| move_pop (k : Z) (x : RpcAble) (q : list RpcAble) (fo : option Factory) :
    pool_move (mkPool (Some (mkChan k (x :: q))) fo)
              (mkPool (Some (mkChan k q)) fo)
| move_push (ch : chanRpcAble) (r : Rconn) (fo : option Factory) :
    Z.of_nat (length (buf ch)) < cap ch ->
    pool_move (mkPool (Some ch) fo)
              (mkPool (Some (mkChan (cap ch) (buf ch ++ [Some r]))) fo)
| move_clear (p : channelPool) : pool_move p (mkPool None None).

Definition RpcAble_eq_dec (x y : RpcAble) : {x = y} + {x <> y}.
Proof. repeat decide equality. Defined.

(** A factory that never returns a nil connection with a nil error. *)
Definition honest (f : Factory) : Prop :=
  forall w, snd (f w) = None -> fst (f w) <> None.

(** The world [n] factory invocations after [w], nothing closed since. *)
Definition later (n : nat) (w : World) : World :=
  mkWorld (n + calls w) (closes w).

(** What [n] successive invocations of [f] return as connections when the
    first of them happens in world [w]. *)
Definition minted (f : Factory) (w : World) (n : nat) : list RpcAble :=
  map (fun i => fst (f (later i w))) (seq 0 n).

(** The free slots of a channel. *)
Definition room (ch : chanRpcAble) : nat :=
  Z.to_nat (cap ch - Z.of_nat (length (buf ch))).

(** A client that calls [Get] [n] times in a row and keeps the results. *)
Fixpoint Get_n (n : nat) : M (list (option PoolRconn * error)) :=
  match n with
  | O => ret []
  | S n' => h <- Get ;; hs <- Get_n n' ;; ret (h :: hs)
  end.

Definition is_get (o : Op) : bool :=
  match o with
  | OpGet => true
  | _ => false
  end.

(** A client that closes, one after the other, unmarked handles of the
    connections [rs]. *)
Definition close_handles (rs : list Rconn) : list Op :=
  map (fun r => OpHandleClose (wrapRconn (Some r))) rs.

(** ** [Get] *)

Lemma Get_closed (fo : option Factory) (w : World) :
  Get (mkStore (mkPool None fo) w)
  = (Ret (None, ErrClosed), mkStore (mkPool None fo) w).
Proof. reflexivity. Qed.

Lemma Get_nil_head (k : Z) (q : list RpcAble) (fo : option Factory)
    (w : World) :
  Get (mkStore (mkPool (Some (mkChan k (None :: q))) fo) w)
  = (Ret (None, ErrClosed), mkStore (mkPool (Some (mkChan k q)) fo) w).
Proof. reflexivity. Qed.

Lemma Get_reuse (k : Z) (r : Rconn) (q : list RpcAble)
    (fo : option Factory) (w : World) :
  Get (mkStore (mkPool (Some (mkChan k (Some r :: q))) fo) w)
  = (Ret (Some (mkPoolRconn (Some r) false), None),
     mkStore (mkPool (Some (mkChan k q)) fo) w).
Proof. reflexivity. Qed.

Lemma Get_create (k : Z) (f : Factory) (w : World) :
  Get (mkStore (mkPool (Some (mkChan k [])) (Some f)) w)
  = (match snd (f w) with
     | Some e => Ret (None, Some e)
     | None => Ret (Some (mkPoolRconn (fst (f w)) false), None)
     end,
     mkStore (mkPool (Some (mkChan k [])) (Some f)) (note_call w)).
Proof.
  unfold Get, bind; simpl.
  destruct (snd (f w)); reflexivity.
Qed.

Lemma Get_nil_factory (k : Z) (w : World) :
  Get (mkStore (mkPool (Some (mkChan k [])) None) w)
  = (Panic nil_deref, mkStore (mkPool (Some (mkChan k [])) None) w).
Proof. reflexivity. Qed.

Lemma Get_never_blocks (s : Store) : fst (Get s) <> Blocked.
Proof.
  destruct s as [[[[k [|[r|] q]]|] [f|]] w];
    rewrite ?Get_closed, ?Get_nil_head, ?Get_reuse, ?Get_create,
      ?Get_nil_factory; simpl; try discriminate.
  destruct (snd (f w)); discriminate.
Qed.

Lemma Get_returns (s : Store) :
  has_factory (pool s) -> exists v s', Get s = (Ret v, s').
Proof.
  destruct s as [[[[k [|[r|] q]]|] [f|]] w]; unfold has_factory; simpl;
    intros H;
    rewrite ?Get_closed, ?Get_nil_head, ?Get_reuse, ?Get_create;
    try (eexists; eexists; reflexivity).
  - destruct (snd (f w)); eexists; eexists; reflexivity.
  - congruence.
Qed.

(** C1: [Get] never blocks and decides by cases.  On a pool that was shut
    down (nil channel) it fails with [ErrClosed]; when the value taken from
    the buffer is nil it fails with [ErrClosed]; when the buffer yields a
    connection, that connection is returned in a fresh unmarked decorator
    and the factory is not invoked; when the buffer is empty the factory is
    invoked exactly once, its error is returned unchanged on failure and
    its connection is wrapped and returned otherwise.  Whenever an open pool
    holds a factory, one of these cases applies and [Get] returns. *)
Theorem Get_case_analysis :
  (forall fo w,
      Get (mkStore (mkPool None fo) w)
      = (Ret (None, ErrClosed), mkStore (mkPool None fo) w))
  /\ (forall k q fo w,
      Get (mkStore (mkPool (Some (mkChan k (None :: q))) fo) w)
      = (Ret (None, ErrClosed), mkStore (mkPool (Some (mkChan k q)) fo) w))
  /\ (forall k r q fo w,
      Get (mkStore (mkPool (Some (mkChan k (Some r :: q))) fo) w)
      = (Ret (Some (mkPoolRconn (Some r) false), None),
         mkStore (mkPool (Some (mkChan k q)) fo) w))
  /\ (forall k f w,
      Get (mkStore (mkPool (Some (mkChan k [])) (Some f)) w)
      = (match snd (f w) with
         | Some e => Ret (None, Some e)
         | None => Ret (Some (mkPoolRconn (fst (f w)) false), None)
         end,
         mkStore (mkPool (Some (mkChan k [])) (Some f))
           (mkWorld (S (calls w)) (closes w))))
  /\ (forall s, fst (Get s) <> Blocked)
  /\ (forall s, has_factory (pool s) -> exists v s', Get s = (Ret v, s')).
Proof.
  repeat apply conj.
  - apply Get_closed.
  - apply Get_nil_head.
  - apply Get_reuse.
  - apply Get_create.
  - apply Get_never_blocks.
  - apply Get_returns.
Qed.

(** ** [put] *)

Lemma put_nil (s : Store) :
  put None s = (Ret (Some "rconn is nil. rejecting"%string), s).
Proof. reflexivity. Qed.

Lemma put_closed (r : Rconn) (s : Store) :
  rconns (pool s) = None ->
  put (Some r) s
  = (Ret (closeResult r (closes (env s))),
     mkStore (pool s) (note_close r (env s))).
Proof.
  intros H. unfold put, bind, load_rconns. rewrite H. reflexivity.
Qed.

Lemma put_full (r : Rconn) (ch : chanRpcAble) (s : Store) :
  rconns (pool s) = Some ch ->
  cap ch <= Z.of_nat (length (buf ch)) ->
  put (Some r) s
  = (Ret (closeResult r (closes (env s))),
     mkStore (pool s) (note_close r (env s))).
Proof.
  intros H Hfull. unfold put, bind, load_rconns, try_send. rewrite H.
  destruct (Z.ltb_spec (Z.of_nat (length (buf ch))) (cap ch)); [lia|].
  reflexivity.
Qed.

Lemma put_room (r : Rconn) (ch : chanRpcAble) (s : Store) :
  rconns (pool s) = Some ch ->
  Z.of_nat (length (buf ch)) < cap ch ->
  put (Some r) s
  = (Ret None,
     mkStore (mkPool (Some (mkChan (cap ch) (buf ch ++ [Some r])))
                (factory (pool s))) (env s)).
Proof.
  intros H Hroom. unfold put, bind, load_rconns, try_send. rewrite H.
  destruct (Z.ltb_spec (Z.of_nat (length (buf ch))) (cap ch)); [|lia].
  reflexivity.
Qed.

(** C2: [put] on any argument.  A nil connection is rejected with an error
    and the store is left as it was.  A connection given to a pool that was
    shut down has its underlying [Close] invoked and the result of that
    call is returned.  A connection given to an open pool whose buffer is at
    capacity has its underlying [Close] invoked and the result of that call
    is returned, the buffer staying as it was.  Otherwise the connection is
    appended to the buffer, no [Close] is invoked and nil is returned. *)
Theorem put_trichotomy :
  (forall s,
      put None s = (Ret (Some "rconn is nil. rejecting"%string), s))
  /\ (forall r s,
      rconns (pool s) = None ->
      put (Some r) s
      = (Ret (closeResult r (closes (env s))),
         mkStore (pool s)
           (mkWorld (calls (env s)) (closes (env s) ++ [r]))))
  /\ (forall r ch s,
      rconns (pool s) = Some ch ->
      cap ch <= Z.of_nat (length (buf ch)) ->
      put (Some r) s
      = (Ret (closeResult r (closes (env s))),
         mkStore (pool s)
           (mkWorld (calls (env s)) (closes (env s) ++ [r]))))
  /\ (forall r ch s,
      rconns (pool s) = Some ch ->
      Z.of_nat (length (buf ch)) < cap ch ->
      put (Some r) s
      = (Ret None,
         mkStore (mkPool (Some (mkChan (cap ch) (buf ch ++ [Some r])))
                    (factory (pool s))) (env s))).
Proof.
  repeat apply conj.
  - apply put_nil.
  - apply put_closed.
  - apply put_full.
  - apply put_room.
Qed.

(** ** [Close] of the store *)

Lemma drain_pool (l : list RpcAble) (s : Store) :
  pool (snd (drain l s)) = pool s.
Proof.
  revert s. induction l as [|[r|] l IH]; intros s; simpl.
  - reflexivity.
  - unfold bind; simpl. rewrite IH. reflexivity.
  - reflexivity.
Qed.

Lemma Close_clears (s : Store) :
  pool (snd (Close s)) = mkPool None None.
Proof.
  destruct s as [[[ch|] fo] w]; unfold Close, bind; simpl.
  - rewrite drain_pool. reflexivity.
  - reflexivity.
Qed.

Lemma Close_closed (fo : option Factory) (w : World) :
  Close (mkStore (mkPool None fo) w) = (Ret tt, mkStore (mkPool None None) w).
Proof. reflexivity. Qed.

(** C4: [Close] on a store that was already closed is a no-op.  Whatever
    the first [Close] did, a second one returns without a panic, invokes no
    underlying [Close] (the world is the same) and leaves the nil channel
    and nil factory as they are. *)
Theorem Close_idempotent :
  (forall s, Close (snd (Close s)) = (Ret tt, snd (Close s)))
  /\ (forall fo w,
      Close (mkStore (mkPool None fo) w)
      = (Ret tt, mkStore (mkPool None None) w)).
Proof.
  split.
  - intros s. pose proof (Close_clears s) as H.
    destruct (snd (Close s)) as [p w]. simpl in H. subst p.
    apply Close_closed.
  - apply Close_closed.
Qed.

(** ** The decorator *)

Lemma PoolRconn_Close_unmarked (x : RpcAble) (s : Store) :
  PoolRconn_Close (mkPoolRconn x false) s = put x s.
Proof. reflexivity. Qed.

(** C5: the dispatch of the decorator's [Close].  A marked handle invokes
    the underlying [Close] of the wrapped connection, returns its result
    and leaves the pool untouched; a marked handle that wraps nothing
    returns nil and does nothing.  An unmarked handle is exactly a call of
    [put] on the wrapped value, so any underlying [Close] is [put]'s own.
    [MarkUnusable] sets the flag and keeps the connection; a handle made by
    [wrapRconn] is unmarked. *)
Theorem PoolRconn_Close_dispatch :
  (forall r s,
      PoolRconn_Close (mkPoolRconn (Some r) true) s
      = (Ret (closeResult r (closes (env s))),
         mkStore (pool s)
           (mkWorld (calls (env s)) (closes (env s) ++ [r]))))
  /\ (forall s, PoolRconn_Close (mkPoolRconn None true) s = (Ret None, s))
  /\ (forall x s, PoolRconn_Close (mkPoolRconn x false) s = put x s)
  /\ (forall p s,
      PoolRconn_Close (MarkUnusable p) s
      = PoolRconn_Close (mkPoolRconn (rpcAble p) true) s)
  /\ (forall x s, PoolRconn_Close (wrapRconn x) s = put x s).
Proof.
  repeat apply conj; reflexivity.
Qed.

(** C9: closing an unmarked handle twice puts its connection twice.  When
    the open buffer has two free slots both calls return nil, no underlying
    [Close] is invoked, the same connection is appended twice and [Len]
    grows by 2. *)
Theorem PoolRconn_Close_twice (r : Rconn) (ch : chanRpcAble)
    (fo : option Factory) (w : World) :
  Z.of_nat (length (buf ch)) + 2 <= cap ch ->
  let p := mkPoolRconn (Some r) false in
  let s0 := mkStore (mkPool (Some ch) fo) w in
  exists s1 s2,
    PoolRconn_Close p s0 = (Ret None, s1)
    /\ PoolRconn_Close p s1 = (Ret None, s2)
    /\ s2 = mkStore
             (mkPool (Some (mkChan (cap ch) (buf ch ++ [Some r; Some r]))) fo)
             w
    /\ Len s0 = (Ret (Z.of_nat (length (buf ch))), s0)
    /\ Len s2 = (Ret (Z.of_nat (length (buf ch)) + 2), s2).
Proof.
  intros Hroom p s0. subst p s0.
  rewrite PoolRconn_Close_unmarked.
  rewrite (put_room r ch) by (simpl; (reflexivity || lia)).
  simpl. eexists. eexists. split; [reflexivity|].
  rewrite PoolRconn_Close_unmarked.
  rewrite (put_room r (mkChan (cap ch) (buf ch ++ [Some r])))
    by (simpl; try reflexivity; rewrite length_app; simpl; lia).
  simpl. rewrite <- app_assoc. simpl.
  split; [reflexivity|]. split; [reflexivity|]. split; [reflexivity|].
  unfold Len, bind; simpl. rewrite length_app, Nat2Z.inj_add.
  reflexivity.
Qed.

(** ** [NewChannelPool] *)

(** C8: with [initialCap < 0], [maxCap <= 0] or [initialCap > maxCap] the
    constructor returns the invalid-capacity error and no pool, and the
    world is the one it started in: the factory was not invoked and no
    connection exists. *)
Theorem NewChannelPool_invalid (initialCap maxCap : Z)
    (fct : option Factory) (w : World) :
  initialCap < 0 \/ maxCap <= 0 \/ initialCap > maxCap ->
  NewChannelPool initialCap maxCap fct w
  = (Ret (None, Some "invalid capacity settings"%string), w).
Proof.
  intros H. unfold NewChannelPool.
  destruct (Z.ltb_spec initialCap 0); [reflexivity|].
  destruct (Z.leb_spec maxCap 0); [reflexivity|].
  destruct (Z.gtb_spec initialCap maxCap); [reflexivity|].
  lia.
Qed.

(** ** Shutdown drains the buffer *)

Lemma drain_no_nil (l : list RpcAble) (s : Store) :
  ~ In None l ->
  drain l s
  = (Ret tt,
     mkStore (pool s) (mkWorld (calls (env s)) (closes (env s) ++ conns l))).
Proof.
  revert s. induction l as [|[r|] l IH]; intros s Hl; simpl.
  - rewrite app_nil_r. destruct s as [p [n cl]]; reflexivity.
  - unfold bind; simpl. rewrite IH by (intros H; apply Hl; right; exact H).
    simpl. rewrite <- app_assoc. reflexivity.
  - exfalso. apply Hl. left. reflexivity.
Qed.

Lemma drain_returns (l : list RpcAble) (s s' : Store) :
  drain l s = (Ret tt, s') -> ~ In None l.
Proof.
  revert s. induction l as [|[r|] l IH]; intros s H; simpl in *.
  - intros [].
  - unfold bind in H; simpl in H.
    intros [Hx|Hx]; [discriminate|]. eapply IH; eauto.
  - discriminate.
Qed.

Lemma count_occ_conns (l : list RpcAble) (r : Rconn) :
  count_occ Nat.eq_dec (conns l) r = count_occ RpcAble_eq_dec l (Some r).
Proof.
  induction l as [|[r0|] l IH]; cbn [count_occ conns].
  - reflexivity.
  - destruct (Nat.eq_dec r0 r), (RpcAble_eq_dec (Some r0) (Some r));
      congruence.
  - destruct (RpcAble_eq_dec None (Some r)); [discriminate|exact IH].
Qed.

(** C3, as the code has it: the first [Close] of an open store clears the
    channel and the factory, so [Len] is 0 afterwards, and it returns
    exactly when the buffer holds no nil entry.  It then has invoked the
    underlying [Close] once for every slot of the buffer, in buffer order
    and dropping each result: a connection is closed as many times as it
    sat in the buffer, hence exactly once when the buffer held no
    duplicate. *)
Theorem Close_drains_each_slot (ch : chanRpcAble) (fo : option Factory)
    (w : World) :
  let s := mkStore (mkPool (Some ch) fo) w in
  let s' := mkStore (mkPool None None)
              (mkWorld (calls w) (closes w ++ conns (buf ch))) in
  (~ In None (buf ch) -> Close s = (Ret tt, s'))
  /\ (forall s'', Close s = (Ret tt, s'') -> ~ In None (buf ch) /\ s'' = s')
  /\ pool (snd (Close s)) = mkPool None None
  /\ Len (snd (Close s)) = (Ret 0, snd (Close s))
  /\ (forall r,
      count_occ Nat.eq_dec (closes (env s')) r
      = (count_occ Nat.eq_dec (closes w) r
         + count_occ RpcAble_eq_dec (buf ch) (Some r))%nat)
  /\ (NoDup (buf ch) ->
      forall r, In (Some r) (buf ch) ->
           count_occ Nat.eq_dec (closes (env s')) r
           = S (count_occ Nat.eq_dec (closes w) r)).
Proof.
  intros s s'.
  assert (Hok : ~ In None (buf ch) -> Close s = (Ret tt, s')).
  { intros Hl. unfold Close, bind; simpl.
    rewrite drain_no_nil by exact Hl. reflexivity. }
  assert (Hcount : forall r,
      count_occ Nat.eq_dec (closes (env s')) r
      = (count_occ Nat.eq_dec (closes w) r
         + count_occ RpcAble_eq_dec (buf ch) (Some r))%nat).
  { intros r. simpl. rewrite count_occ_app, count_occ_conns. reflexivity. }
  repeat apply conj.
  - exact Hok.
  - intros s'' H.
    assert (Hl : ~ In None (buf ch)).
    { unfold Close, bind in H; simpl in H. eapply drain_returns; eauto. }
    split; [exact Hl|]. rewrite (Hok Hl) in H. congruence.
  - apply Close_clears.
  - pose proof (Close_clears s) as H.
    destruct (snd (Close s)) as [p w']. simpl in H. subst p. reflexivity.
  - exact Hcount.
  - intros Hnd r Hin. rewrite Hcount.
    pose proof (proj1 (NoDup_count_occ' RpcAble_eq_dec (buf ch)) Hnd _ Hin)
      as H1.
    etransitivity; [exact (f_equal (Nat.add _) H1)|lia].
Qed.

(** ** Every call moves the pool in one of four ways *)

Lemma snd_bind_ret (A : Type) (m : M A) (s : Store) :
  snd ((m ;; ret tt) s) = snd (m s).
Proof.
  unfold bind. destruct (m s) as [[a| |] s']; reflexivity.
Qed.

Lemma Get_move (s : Store) : pool_move (pool s) (pool (snd (Get s))).
Proof.
  destruct s as [[[[k [|[r|] q]]|] [f|]] w];
    rewrite ?Get_closed, ?Get_nil_head, ?Get_reuse, ?Get_create,
      ?Get_nil_factory; simpl; constructor.
Qed.

Lemma put_move (x : RpcAble) (s : Store) :
  pool_move (pool s) (pool (snd (put x s))).
Proof.
  destruct x as [r|]; [|rewrite put_nil; constructor].
  destruct s as [[[ch|] fo] w].
  - destruct (Z.lt_ge_cases (Z.of_nat (length (buf ch))) (cap ch)).
    + rewrite (put_room r ch) by (simpl; auto). simpl.
      apply move_push. assumption.
    + rewrite (put_full r ch) by (simpl; auto). simpl. constructor.
  - rewrite put_closed by reflexivity. simpl. constructor.
Qed.

Lemma PoolRconn_Close_move (p : PoolRconn) (s : Store) :
  pool_move (pool s) (pool (snd (PoolRconn_Close p s))).
Proof.
  destruct p as [x [|]].
  - destruct x; simpl; constructor.
  - apply put_move.
Qed.

Lemma step_move (o : Op) (s : Store) :
  pool_move (pool s) (pool (snd (step o s))).
Proof.
  destruct o; simpl; rewrite ?snd_bind_ret.
  - apply Get_move.
  - apply put_move.
  - apply PoolRconn_Close_move.
  - rewrite Close_clears. constructor.
  - constructor.
Qed.

Lemma run_preserves (P : channelPool -> Prop) :
  (forall p p', pool_move p p' -> P p -> P p') ->
  forall ops s, P (pool s) -> P (pool (snd (run ops s))).
Proof.
  intros HP ops. induction ops as [|o ops IH]; intros s Hs; simpl.
  - exact Hs.
  - unfold bind. pose proof (step_move o s) as Hm.
    destruct (step o s) as [[[]| |] s1]; simpl in *;
      [apply IH|..]; eapply HP; eauto.
Qed.

Lemma bounded_move (k : Z) (p p' : channelPool) :
  pool_move p p' -> bounded k p -> bounded k p'.
Proof.
  intros Hm. destruct Hm; unfold bounded; simpl.
  - auto.
  - intros [Hk Hl]. split; [exact Hk|]. simpl length in Hl. lia.
  - intros [Hk Hl]. split; [exact Hk|]. rewrite length_app. simpl. lia.
  - trivial.
Qed.

Lemma no_nil_move (p p' : channelPool) :
  pool_move p p' -> no_nil p -> no_nil p'.
Proof.
  intros Hm. destruct Hm; unfold no_nil; simpl.
  - auto.
  - intros Hq Hin. apply Hq. right. exact Hin.
  - intros Hq Hin. apply in_app_iff in Hin. destruct Hin as [Hin|[Hin|[]]].
    + auto.
    + discriminate.
  - trivial.
Qed.

Lemma has_factory_move (p p' : channelPool) :
  pool_move p p' -> has_factory p -> has_factory p'.
Proof.
  intros Hm. destruct Hm; unfold has_factory; simpl; auto.
Qed.

(** ** The constructor *)

Lemma send_pool (x : RpcAble) (s : Store) :
  pool (snd (send x s)) = pool s
  \/ exists ch,
      rconns (pool s) = Some ch
      /\ Z.of_nat (length (buf ch)) < cap ch
      /\ pool (snd (send x s))
         = mkPool (Some (mkChan (cap ch) (buf ch ++ [x]))) (factory (pool s)).
Proof.
  destruct s as [[[ch|] fo] w]; unfold send, bind; simpl.
  - destruct (Z.ltb_spec (Z.of_nat (length (buf ch))) (cap ch)).
    + right. exists ch. auto.
    + left. reflexivity.
  - left. reflexivity.
Qed.

(** A property of the pool object survives the filling loop when it holds
    of a pool that was shut down and survives appending one value the
    factory returned with a nil error. *)
Lemma fill_preserves (P : channelPool -> Prop) (fct : option Factory) :
  P (mkPool None None) ->
  (forall ch fo f w,
      fct = Some f -> snd (f w) = None ->
      Z.of_nat (length (buf ch)) < cap ch ->
      P (mkPool (Some ch) fo) ->
      P (mkPool (Some (mkChan (cap ch) (buf ch ++ [fst (f w)]))) fo)) ->
  forall n s, P (pool s) -> P (pool (snd (fill fct n s))).
Proof.
  intros Hclear Hpush n. induction n as [|n IH]; intros s Hs.
  - exact Hs.
  - cbn [fill]. unfold bind at 1.
    destruct fct as [f|]; [|exact Hs].
    cbn [invoke]. cbv beta iota. cbn [snd fst].
    destruct (snd (f (env s))) as [e|] eqn:E.
    + unfold bind.
      pose proof (Close_clears (mkStore (pool s) (note_call (env s)))) as Hc.
      destruct (Close (mkStore (pool s) (note_call (env s))))
        as [[[]| |] s1]; simpl in *; rewrite Hc; exact Hclear.
    + unfold bind.
      destruct (send_pool (fst (f (env s)))
                  (mkStore (pool s) (note_call (env s))))
        as [Hp|(ch & Hch & Hroom & Hp)];
        destruct (send (fst (f (env s)))
                    (mkStore (pool s) (note_call (env s))))
          as [[[]| |] s1]; cbn [snd pool] in *; try apply IH;
        rewrite Hp; try exact Hs;
        destruct (pool s) as [rc fo]; cbn [rconns factory] in *;
        subst rc; eapply Hpush; eauto.
Qed.

Lemma NewChannelPool_built (initialCap maxCap : Z) (fct : option Factory)
    (w : World) (c : channelPool) (w1 : World) :
  NewChannelPool initialCap maxCap fct w = (Ret (Some c, None), w1) ->
  0 < maxCap
  /\ exists s,
      s = snd (fill fct (Z.to_nat initialCap)
                 (mkStore (mkPool (Some (mkChan maxCap [])) fct) w))
      /\ c = pool s /\ w1 = env s.
Proof.
  unfold NewChannelPool.
  destruct (Z.ltb_spec initialCap 0); [discriminate|].
  destruct (Z.leb_spec maxCap 0); [discriminate|].
  destruct (Z.gtb_spec initialCap maxCap); [discriminate|].
  cbn [orb].
  destruct (fill fct (Z.to_nat initialCap)
              (mkStore (mkPool (Some (mkChan maxCap [])) fct) w))
    as [[[e|]| |] s1]; intros Hn; inversion Hn; subst.
  split; [assumption|]. eexists; eauto.
Qed.

Lemma constructed_bounded (initialCap maxCap : Z) (fct : option Factory)
    (w : World) (c : channelPool) (w1 : World) :
  NewChannelPool initialCap maxCap fct w = (Ret (Some c, None), w1) ->
  0 < maxCap /\ bounded maxCap c.
Proof.
  intros H. apply NewChannelPool_built in H.
  destruct H as (Hpos & s & Hs & Hc & _). split; [exact Hpos|].
  subst c s. apply fill_preserves.
  - exact I.
  - unfold bounded; simpl. intros ch fo f w' _ _ Hroom [Hk Hl].
    split; [exact Hk|]. rewrite length_app. simpl. lia.
  - unfold bounded; simpl. lia.
Qed.

Lemma constructed_no_nil (initialCap maxCap : Z) (f : Factory)
    (w : World) (c : channelPool) (w1 : World) :
  honest f ->
  NewChannelPool initialCap maxCap (Some f) w = (Ret (Some c, None), w1) ->
  no_nil c.
Proof.
  intros Hf H. apply NewChannelPool_built in H.
  destruct H as (_ & s & Hs & Hc & _). subst c s. apply fill_preserves.
  - exact I.
  - unfold no_nil; simpl. intros ch fo f' w' Hf' Herr _ Hq Hin.
    inversion Hf'; subst f'.
    apply in_app_iff in Hin. destruct Hin as [Hin|[Hin|[]]].
    + auto.
    + revert Hin. apply Hf. exact Herr.
  - unfold no_nil; simpl. auto.
Qed.

Lemma constructed_has_factory (initialCap maxCap : Z) (f : Factory)
    (w : World) (c : channelPool) (w1 : World) (ops : list Op) :
  NewChannelPool initialCap maxCap (Some f) w = (Ret (Some c, None), w1) ->
  has_factory (pool (snd (run ops (mkStore c w1)))).
Proof.
  intros H. apply run_preserves; [apply has_factory_move|].
  apply NewChannelPool_built in H.
  destruct H as (_ & s & Hs & Hc & _). subst c s. apply fill_preserves.
  - exact I.
  - unfold has_factory; simpl. auto.
  - unfold has_factory; simpl. discriminate.
Qed.

Lemma Len_reads (s : Store) : Len s = (Ret (chan_len (rconns (pool s))), s).
Proof. reflexivity. Qed.

(** C6: for a pool built by [NewChannelPool] with maximum capacity
    [maxCap], after every program of [Get], [put], handle [Close], store
    [Close] and [Len] calls, [Len] is between 0 and [maxCap]; and when the
    buffer holds [maxCap] connections, returning one more, through a handle
    or through [put], invokes its underlying [Close], returns that result
    and leaves the buffer as it is. *)
Theorem Len_never_exceeds_maxCap (initialCap maxCap : Z)
    (fct : option Factory) (w : World) (c : channelPool) (w1 : World) :
  NewChannelPool initialCap maxCap fct w = (Ret (Some c, None), w1) ->
  forall ops,
    let s := snd (run ops (mkStore c w1)) in
    (exists n, Len s = (Ret n, s) /\ 0 <= n <= maxCap)
    /\ (Len s = (Ret maxCap, s) ->
        forall r,
          PoolRconn_Close (mkPoolRconn (Some r) false) s
          = (Ret (closeResult r (closes (env s))),
             mkStore (pool s)
               (mkWorld (calls (env s)) (closes (env s) ++ [r])))
          /\ put (Some r) s
             = (Ret (closeResult r (closes (env s))),
                mkStore (pool s)
                  (mkWorld (calls (env s)) (closes (env s) ++ [r])))).
Proof.
  intros H ops s.
  destruct (constructed_bounded _ _ _ _ _ _ H) as [Hpos Hb].
  assert (Hs : bounded maxCap (pool s)).
  { subst s. apply run_preserves; [apply bounded_move|exact Hb]. }
  clearbody s. unfold bounded in Hs. split.
  - exists (chan_len (rconns (pool s))). split; [apply Len_reads|].
    destruct (rconns (pool s)) as [ch|]; simpl; lia.
  - rewrite Len_reads. intros Hfull r. rewrite PoolRconn_Close_unmarked.
    assert (Hlen : chan_len (rconns (pool s)) = maxCap) by congruence.
    destruct (rconns (pool s)) as [ch|] eqn:E.
    + simpl in Hlen. destruct Hs as [Hk _].
      rewrite (put_full r ch) by (auto; lia). split; reflexivity.
    + rewrite put_closed by exact E. split; reflexivity.
Qed.

(** C10: when the factory never returns a nil connection with a nil error,
    the idle buffer of a pool built by [NewChannelPool] holds no nil entry
    after any program of [Get], [put] and handle [Close] calls (and store
    [Close] and [Len] calls): the constructor appends only what the factory
    returned without error, and [put] rejects nil before it appends. *)
Theorem buffer_never_holds_nil (initialCap maxCap : Z) (f : Factory)
    (w : World) (c : channelPool) (w1 : World) :
  honest f ->
  NewChannelPool initialCap maxCap (Some f) w = (Ret (Some c, None), w1) ->
  forall ops ch,
    rconns (pool (snd (run ops (mkStore c w1)))) = Some ch ->
    ~ In None (buf ch).
Proof.
  intros Hf H ops ch Hch.
  assert (Hs : no_nil (pool (snd (run ops (mkStore c w1))))).
  { apply run_preserves; [apply no_nil_move|].
    eapply constructed_no_nil; eauto. }
  unfold no_nil in Hs. rewrite Hch in Hs. exact Hs.
Qed.

(** ** [Get] followed by the handle's [Close] *)

(** C7, as the code has it: on an open pool whose buffer has a connection
    at its head, [Get] followed by [Close] on the returned, unmarked handle
    takes the connection out and appends it again, so [Len] is what it was
    and nothing outside the pool happened.  On an open pool whose buffer is
    empty and whose factory returns a connection, the same two calls leave
    the new connection in the buffer: [Len] goes from 0 to 1. *)
Theorem Get_then_Close_Len (k : Z) (fo : option Factory) (w : World) :
  (forall r q,
      Z.of_nat (length (Some r :: q)) <= k ->
      let s0 := mkStore (mkPool (Some (mkChan k (Some r :: q))) fo) w in
      exists h s1 s2,
        Get s0 = (Ret (Some h, None), s1)
        /\ unusable h = false
        /\ PoolRconn_Close h s1 = (Ret None, s2)
        /\ fst (Len s2) = fst (Len s0)
        /\ env s2 = w)
  /\ (forall f r,
      0 < k ->
      f w = (Some r, None) ->
      let s0 := mkStore (mkPool (Some (mkChan k [])) (Some f)) w in
      exists h s1 s2,
        Get s0 = (Ret (Some h, None), s1)
        /\ unusable h = false
        /\ PoolRconn_Close h s1 = (Ret None, s2)
        /\ Len s0 = (Ret 0, s0)
        /\ Len s2 = (Ret 1, s2)).
Proof.
  split.
  - intros r q Hk s0. subst s0. rewrite Get_reuse.
    assert (Hq : Z.of_nat (length q) < k) by (cbn [length] in Hk; lia).
    eexists. eexists. eexists. split; [reflexivity|].
    split; [reflexivity|]. rewrite PoolRconn_Close_unmarked.
    rewrite (put_room r (mkChan k q)) by (try reflexivity; exact Hq).
    split; [reflexivity|]. rewrite !Len_reads. cbn [fst snd pool rconns
      chan_len buf env]. rewrite length_app. cbn [length].
    split; [|reflexivity]. f_equal. lia.
  - intros f r Hk Hf s0. subst s0. rewrite Get_create. rewrite Hf. simpl.
    eexists. eexists. eexists. split; [reflexivity|].
    split; [reflexivity|]. rewrite PoolRconn_Close_unmarked.
    rewrite (put_room r (mkChan k []))
      by (simpl; try reflexivity; lia).
    split; [reflexivity|]. split; reflexivity.
Qed.

(** ** The constructor, call by call *)

Lemma later_0 (w : World) : later 0 w = w.
Proof. destruct w; reflexivity. Qed.

Lemma later_note (i : nat) (w : World) :
  later i (note_call w) = later (S i) w.
Proof.
  unfold later, note_call; simpl. rewrite Nat.add_succ_r. reflexivity.
Qed.

Lemma minted_S (f : Factory) (w : World) (n : nat) :
  minted f w (S n) = fst (f w) :: minted f (note_call w) n.
Proof.
  unfold minted. cbn [seq map]. rewrite later_0. f_equal.
  rewrite <- seq_shift, map_map. apply map_ext.
  intros i. rewrite later_note. reflexivity.
Qed.

Lemma minted_snoc (f : Factory) (w : World) (n : nat) :
  minted f w (S n) = minted f w n ++ [fst (f (later n w))].
Proof.
  unfold minted. rewrite seq_S, map_app. reflexivity.
Qed.

Lemma send_room (x : RpcAble) (ch : chanRpcAble) (s : Store) :
  rconns (pool s) = Some ch ->
  Z.of_nat (length (buf ch)) < cap ch ->
  send x s
  = (Ret tt,
     mkStore (mkPool (Some (mkChan (cap ch) (buf ch ++ [x])))
                (factory (pool s))) (env s)).
Proof.
  intros H Hroom. unfold send, bind, load_rconns. rewrite H.
  destruct (Z.ltb_spec (Z.of_nat (length (buf ch))) (cap ch)); [|lia].
  reflexivity.
Qed.

Lemma fill_step_ok (f : Factory) (n : nat) (s : Store) :
  snd (f (env s)) = None ->
  fill (Some f) (S n) s
  = (send (fst (f (env s))) ;; fill (Some f) n)
      (mkStore (pool s) (note_call (env s))).
Proof.
  intros H. cbn [fill]. unfold bind at 1. cbn [invoke snd fst].
  rewrite H. reflexivity.
Qed.

Lemma fill_step_err (f : Factory) (n : nat) (s : Store) (e : string) :
  snd (f (env s)) = Some e ->
  fill (Some f) (S n) s
  = (Close ;;
     ret (Some ("factory is not able to fill the pool: " ++ e)%string))
      (mkStore (pool s) (note_call (env s))).
Proof.
  intros H. cbn [fill]. unfold bind at 1. cbn [invoke snd fst].
  rewrite H. reflexivity.
Qed.

Lemma Close_open (ch : chanRpcAble) (fo : option Factory) (w : World) :
  ~ In None (buf ch) ->
  Close (mkStore (mkPool (Some ch) fo) w)
  = (Ret tt,
     mkStore (mkPool None None)
       (mkWorld (calls w) (closes w ++ conns (buf ch)))).
Proof.
  intros Hl. unfold Close, bind; simpl.
  rewrite drain_no_nil by exact Hl. reflexivity.
Qed.

Lemma fill_succeeds (f : Factory) (n : nat) :
  forall (s : Store) (ch : chanRpcAble),
    rconns (pool s) = Some ch ->
    Z.of_nat (length (buf ch)) + Z.of_nat n <= cap ch ->
    (forall i, (i < n)%nat -> snd (f (later i (env s))) = None) ->
    fill (Some f) n s
    = (Ret None,
       mkStore
         (mkPool (Some (mkChan (cap ch) (buf ch ++ minted f (env s) n)))
            (factory (pool s)))
         (later n (env s))).
Proof.
  induction n as [|n IH]; intros s ch Hch Hcap Hok.
  - cbn [fill]. unfold ret, minted. cbn [seq map].
    rewrite app_nil_r, later_0.
    destruct s as [[rc fo] w]; simpl in *. subst rc.
    destruct ch; reflexivity.
  - assert (H0 : snd (f (env s)) = None).
    { rewrite <- (later_0 (env s)) at 1. apply Hok. lia. }
    rewrite fill_step_ok by exact H0. unfold bind.
    rewrite (send_room _ ch) by (cbn [pool]; auto; lia).
    rewrite (IH _ (mkChan (cap ch) (buf ch ++ [fst (f (env s))]))).
    + cbn [pool env cap buf factory]. rewrite later_note, minted_S.
      rewrite <- app_assoc. reflexivity.
    + reflexivity.
    + cbn [cap buf]. rewrite length_app. cbn [length]. lia.
    + intros i Hi. cbn [env]. rewrite later_note. apply Hok. lia.
Qed.

Lemma fill_fails (f : Factory) (e : string) (j : nat) :
  forall (n : nat) (s : Store) (ch : chanRpcAble),
    rconns (pool s) = Some ch ->
    Z.of_nat (length (buf ch)) + Z.of_nat n <= cap ch ->
    (j < n)%nat ->
    (forall i, (i < j)%nat -> snd (f (later i (env s))) = None) ->
    snd (f (later j (env s))) = Some e ->
    ~ In None (buf ch ++ minted f (env s) j) ->
    fill (Some f) n s
    = (Ret (Some ("factory is not able to fill the pool: " ++ e)%string),
       mkStore (mkPool None None)
         (mkWorld (S j + calls (env s))
            (closes (env s) ++ conns (buf ch ++ minted f (env s) j)))).
Proof.
  induction j as [|j IH]; intros n s ch Hch Hcap Hj Hok He Hnil;
    destruct n as [|n]; try lia.
  - rewrite later_0 in He. rewrite fill_step_err with (e := e) by exact He.
    unfold bind. destruct s as [[rc fo] w]; cbn [pool env rconns] in *.
    subst rc. unfold minted in *. cbn [seq map] in *.
    rewrite app_nil_r in *. rewrite Close_open by exact Hnil.
    reflexivity.
  - assert (H0 : snd (f (env s)) = None).
    { rewrite <- (later_0 (env s)) at 1. apply Hok. lia. }
    rewrite fill_step_ok by exact H0. unfold bind.
    rewrite (send_room _ ch) by (cbn [pool]; auto; lia).
    rewrite minted_S in Hnil.
    change (buf ch ++ fst (f (env s)) :: minted f (note_call (env s)) j)
      with (buf ch ++ [fst (f (env s))] ++ minted f (note_call (env s)) j)
      in Hnil.
    rewrite app_assoc in Hnil.
    rewrite (IH n _ (mkChan (cap ch) (buf ch ++ [fst (f (env s))]))).
    + cbn [pool env cap buf calls closes note_call].
      rewrite minted_S, <- app_assoc, Nat.add_succ_r. reflexivity.
    + reflexivity.
    + cbn [cap buf]. rewrite length_app. cbn [length]. lia.
    + lia.
    + intros i Hi. cbn [env]. rewrite later_note. apply Hok. lia.
    + cbn [env]. rewrite later_note. exact He.
    + cbn [env buf]. exact Hnil.
Qed.

Lemma drain_outcome (l : list RpcAble) (s : Store) :
  fst (drain l s) = Ret tt \/ fst (drain l s) = Panic nil_deref.
Proof.
  revert s. induction l as [|[r|] l IH]; intros s; simpl.
  - left. reflexivity.
  - unfold bind; simpl. apply IH.
  - right. reflexivity.
Qed.

Lemma Close_never_blocks (s : Store) : fst (Close s) <> Blocked.
Proof.
  destruct s as [[[ch|] fo] w]; unfold Close, bind; simpl.
  - destruct (drain_outcome (buf ch) (mkStore (mkPool None None) w)) as [H|H];
      rewrite H; discriminate.
  - discriminate.
Qed.

Lemma fill_never_blocks (fct : option Factory) (n : nat) :
  forall (s : Store) (ch : chanRpcAble),
    rconns (pool s) = Some ch ->
    Z.of_nat (length (buf ch)) + Z.of_nat n <= cap ch ->
    fst (fill fct n s) <> Blocked.
Proof.
  induction n as [|n IH]; intros s ch Hch Hcap.
  - discriminate.
  - destruct fct as [f|]; [|discriminate].
    destruct (snd (f (env s))) as [e|] eqn:E.
    + rewrite fill_step_err with (e := e) by exact E. unfold bind.
      pose proof (Close_never_blocks (mkStore (pool s) (note_call (env s))))
        as Hc.
      destruct (Close (mkStore (pool s) (note_call (env s))))
        as [[[]| |] s1]; simpl in *; congruence.
    + rewrite fill_step_ok by exact E. unfold bind.
      rewrite (send_room _ ch) by (cbn [pool]; auto; lia).
      apply (IH _ (mkChan (cap ch) (buf ch ++ [fst (f (env s))]))).
      * reflexivity.
      * cbn [cap buf]. rewrite length_app. cbn [length]. lia.
Qed.

Lemma NewChannelPool_valid (initialCap maxCap : Z) (fct : option Factory)
    (w : World) :
  0 <= initialCap <= maxCap ->
  0 < maxCap ->
  NewChannelPool initialCap maxCap fct w
  = match fill fct (Z.to_nat initialCap)
            (mkStore (mkPool (Some (mkChan maxCap [])) fct) w) with
    | (Ret None, s) => (Ret (Some (pool s), None), env s)
    | (Ret (Some e), s) => (Ret (None, Some e), env s)
    | (Panic msg, s) => (Panic msg, env s)
    | (Blocked, s) => (Blocked, env s)
    end.
Proof.
  intros Hic Hmc. unfold NewChannelPool.
  destruct (Z.ltb_spec initialCap 0); [lia|].
  destruct (Z.leb_spec maxCap 0); [lia|].
  destruct (Z.gtb_spec initialCap maxCap); [lia|].
  reflexivity.
Qed.

(** X1: with valid capacities and a factory whose first [initialCap] calls
    return no error, the constructor returns a pool whose channel has
    capacity [maxCap] and buffers exactly what those calls returned, oldest
    first; the factory was invoked [initialCap] times, nothing was closed,
    and [Len] of the new pool is [initialCap]. *)
Theorem NewChannelPool_fills (initialCap maxCap : Z) (f : Factory)
    (w : World) :
  0 <= initialCap <= maxCap ->
  0 < maxCap ->
  (forall i, (i < Z.to_nat initialCap)%nat -> snd (f (later i w)) = None) ->
  let c := mkPool (Some (mkChan maxCap (minted f w (Z.to_nat initialCap))))
             (Some f) in
  let w1 := mkWorld (Z.to_nat initialCap + calls w) (closes w) in
  NewChannelPool initialCap maxCap (Some f) w = (Ret (Some c, None), w1)
  /\ Len (mkStore c w1) = (Ret initialCap, mkStore c w1).
Proof.
  intros Hic Hmc Hok c w1. split.
  - rewrite NewChannelPool_valid by assumption.
    rewrite (fill_succeeds f _ _ (mkChan maxCap []))
      by (cbn [pool env rconns cap buf length]; auto; lia).
    reflexivity.
  - subst c w1. rewrite Len_reads. cbn [pool rconns chan_len buf].
    unfold minted. rewrite length_map, length_seq, Z2Nat.id by lia.
    reflexivity.
Qed.

(** X2: with valid capacities, when the first [j] calls of the factory
    return connections without error and call number [j] (counting from 0,
    [j < initialCap]) returns the error [e], the constructor returns no pool
    and the error ["factory is not able to fill the pool: " ++ e]; the
    factory was invoked [j + 1] times and the underlying [Close] of each of
    the [j] connections made so far was invoked once, oldest first. *)
Theorem NewChannelPool_factory_fails (initialCap maxCap : Z) (f : Factory)
    (w : World) (j : nat) (e : string) :
  0 <= initialCap <= maxCap ->
  0 < maxCap ->
  (j < Z.to_nat initialCap)%nat ->
  (forall i, (i < j)%nat -> snd (f (later i w)) = None) ->
  snd (f (later j w)) = Some e ->
  ~ In None (minted f w j) ->
  NewChannelPool initialCap maxCap (Some f) w
  = (Ret (None, Some ("factory is not able to fill the pool: " ++ e)%string),
     mkWorld (S j + calls w) (closes w ++ conns (minted f w j))).
Proof.
  intros Hic Hmc Hj Hok He Hnil.
  rewrite NewChannelPool_valid by assumption.
  rewrite (fill_fails f e j _ _ (mkChan maxCap []))
    by (cbn [pool env rconns cap buf length app]; auto; lia).
  reflexivity.
Qed.

(** X3: the constructor never blocks, whatever its arguments: the guard
    [initialCap > maxCap] leaves room in the channel for every send of the
    filling loop. *)
Theorem NewChannelPool_never_blocks (initialCap maxCap : Z)
    (fct : option Factory) (w : World) :
  fst (NewChannelPool initialCap maxCap fct w) <> Blocked.
Proof.
  unfold NewChannelPool.
  destruct (Z.ltb_spec initialCap 0); [discriminate|].
  destruct (Z.leb_spec maxCap 0); [discriminate|].
  destruct (Z.gtb_spec initialCap maxCap); [discriminate|].
  cbn [orb].
  pose proof (fill_never_blocks fct (Z.to_nat initialCap)
                (mkStore (mkPool (Some (mkChan maxCap [])) fct) w)
                (mkChan maxCap []) eq_refl) as Hb.
  cbn [cap buf length] in Hb.
  destruct (fill fct (Z.to_nat initialCap)
              (mkStore (mkPool (Some (mkChan maxCap [])) fct) w))
    as [[[e|]| |] s1]; cbn [fst] in *; try discriminate.
  intros _. apply Hb; [lia|reflexivity].
Qed.

(** X4: a nil factory func is accepted by the constructor.  With valid
    capacities and [initialCap = 0] it returns an open, empty pool without
    a factory; with [initialCap > 0] the first iteration of the filling
    loop calls the nil func and panics before anything is created. *)
Theorem NewChannelPool_nil_factory (initialCap maxCap : Z) (w : World) :
  0 <= initialCap <= maxCap ->
  0 < maxCap ->
  NewChannelPool initialCap maxCap None w
  = if initialCap =? 0
    then (Ret (Some (mkPool (Some (mkChan maxCap [])) None), None), w)
    else (Panic nil_deref, w).
Proof.
  intros Hic Hmc. rewrite NewChannelPool_valid by assumption.
  destruct (Z.eqb_spec initialCap 0) as [E|E].
  - subst initialCap. reflexivity.
  - destruct (Z.to_nat initialCap) as [|n] eqn:En; [lia|]. reflexivity.
Qed.

(** ** Programs of calls *)

Lemma bind_ret_tt (A : Type) (m : M A) (a : A) (s s1 : Store) :
  m s = (Ret a, s1) -> (m ;; ret tt) s = (Ret tt, s1).
Proof. intros H. unfold bind. rewrite H. reflexivity. Qed.

Lemma run_cons (o : Op) (ops : list Op) (s s1 : Store) :
  step o s = (Ret tt, s1) -> run (o :: ops) s = run ops s1.
Proof. intros H. cbn [run]. unfold bind. rewrite H. reflexivity. Qed.

Lemma put_returns (x : RpcAble) (s : Store) :
  exists e s', put x s = (Ret e, s').
Proof.
  destruct x as [r|]; [|rewrite put_nil; eauto].
  destruct (rconns (pool s)) as [ch|] eqn:E.
  - destruct (Z.lt_ge_cases (Z.of_nat (length (buf ch))) (cap ch)).
    + rewrite (put_room r ch) by auto. eauto.
    + rewrite (put_full r ch) by auto. eauto.
  - rewrite put_closed by exact E. eauto.
Qed.

Lemma PoolRconn_Close_returns (p : PoolRconn) (s : Store) :
  exists e s', PoolRconn_Close p s = (Ret e, s').
Proof.
  destruct p as [x [|]].
  - destruct x as [r|]; eexists; eexists; reflexivity.
  - apply put_returns.
Qed.

Lemma step_returns (o : Op) (s : Store) :
  no_nil (pool s) -> has_factory (pool s) ->
  exists s', step o s = (Ret tt, s').
Proof.
  intros Hn Hf. destruct o; cbn [step].
  - destruct (Get_returns s Hf) as (v & s' & H).
    exists s'. eapply bind_ret_tt; eauto.
  - destruct (put_returns rconn s) as (e & s' & H).
    exists s'. eapply bind_ret_tt; eauto.
  - destruct (PoolRconn_Close_returns p s) as (e & s' & H).
    exists s'. eapply bind_ret_tt; eauto.
  - destruct s as [[[ch|] fo] w].
    + rewrite Close_open by exact Hn. eauto.
    + rewrite Close_closed. eauto.
  - eexists. reflexivity.
Qed.

Lemma run_returns (ops : list Op) :
  forall s, no_nil (pool s) -> has_factory (pool s) ->
       exists s', run ops s = (Ret tt, s').
Proof.
  induction ops as [|o ops IH]; intros s Hn Hf.
  - eexists. reflexivity.
  - destruct (step_returns o s Hn Hf) as (s1 & H1).
    pose proof (step_move o s) as Hm. rewrite H1 in Hm. cbn [snd] in Hm.
    rewrite (run_cons _ _ _ _ H1). apply IH.
    + eapply no_nil_move; eauto.
    + eapply has_factory_move; eauto.
Qed.

(** X5: a pool built by [NewChannelPool] from a factory that is not nil
    and never returns a nil connection with a nil error cannot crash its
    client: every program of [Get], [put], handle [Close], store [Close]
    and [Len] calls runs to its end, no call panics and none blocks. *)
Theorem constructed_pool_never_panics (initialCap maxCap : Z) (f : Factory)
    (w : World) (c : channelPool) (w1 : World) :
  honest f ->
  NewChannelPool initialCap maxCap (Some f) w = (Ret (Some c, None), w1) ->
  forall ops, exists s', run ops (mkStore c w1) = (Ret tt, s').
Proof.
  intros Hf H ops. apply run_returns; cbn [pool].
  - eapply constructed_no_nil; eauto.
  - exact (constructed_has_factory _ _ _ _ _ _ [] H).
Qed.

Lemma step_closed (o : Op) (s : Store) :
  rconns (pool s) = None ->
  exists s',
    step o s = (Ret tt, s')
    /\ pool s' = mkPool None (match o with OpClose => None
                                       | _ => factory (pool s) end)
    /\ calls (env s') = calls (env s).
Proof.
  destruct s as [[rc fo] w]; cbn [pool rconns env factory]. intros ->.
  destruct o as [|[r|]|[[r|] [|]]| |];
    eexists; (split; [reflexivity|split; reflexivity]).
Qed.

Lemma run_closed (ops : list Op) :
  forall s,
    rconns (pool s) = None ->
    exists s',
      run ops s = (Ret tt, s')
      /\ rconns (pool s') = None
      /\ calls (env s') = calls (env s).
Proof.
  induction ops as [|o ops IH]; intros s Hs.
  - exists s. auto.
  - destruct (step_closed o s Hs) as (s1 & H1 & Hp & Hc).
    rewrite (run_cons _ _ _ _ H1).
    destruct (IH s1) as (s' & Hr & Hp' & Hc').
    { rewrite Hp. reflexivity. }
    exists s'. repeat split; auto. congruence.
Qed.

(** X6: a pool that was shut down stays shut down.  Every program of calls
    on it runs to its end, the factory is never invoked again, the channel
    stays nil, [Len] is 0 and [Get] fails with [ErrClosed]. *)
Theorem closed_pool_stays_closed (s : Store) (ops : list Op) :
  rconns (pool s) = None ->
  exists s',
    run ops s = (Ret tt, s')
    /\ rconns (pool s') = None
    /\ calls (env s') = calls (env s)
    /\ Len s' = (Ret 0, s')
    /\ Get s' = (Ret (None, ErrClosed), s').
Proof.
  intros Hs. destruct (run_closed ops s Hs) as (s' & Hr & Hp & Hc).
  exists s'. repeat split; auto.
  - rewrite Len_reads, Hp. reflexivity.
  - destruct s' as [[rc fo] w']. cbn [pool rconns] in Hp. subst rc.
    apply Get_closed.
Qed.

Lemma Get_n_reuse (rs : list Rconn) (k : Z) (q : list RpcAble)
    (fo : option Factory) (w : World) :
  Get_n (length rs)
    (mkStore (mkPool (Some (mkChan k (map Some rs ++ q))) fo) w)
  = (Ret (map (fun r => (Some (mkPoolRconn (Some r) false), None)) rs),
     mkStore (mkPool (Some (mkChan k q)) fo) w).
Proof.
  induction rs as [|r rs IH].
  - reflexivity.
  - cbn [length Get_n map app]. unfold bind at 1. rewrite Get_reuse.
    unfold bind at 1. rewrite IH. reflexivity.
Qed.

(** X7: [Get] hands out idle connections oldest first.  When the buffer
    starts with the connections [rs], that many calls of [Get] return
    unmarked handles of [rs] in buffer order with nil errors; the factory
    is not invoked, nothing is closed, the buffer is left with what came
    after [rs] and [Len] has dropped by the number of calls. *)
Theorem Get_n_oldest_first (rs : list Rconn) (k : Z) (q : list RpcAble)
    (fo : option Factory) (w : World) :
  let s0 := mkStore (mkPool (Some (mkChan k (map Some rs ++ q))) fo) w in
  let s1 := mkStore (mkPool (Some (mkChan k q)) fo) w in
  Get_n (length rs) s0
  = (Ret (map (fun r => (Some (mkPoolRconn (Some r) false), None)) rs), s1)
  /\ Len s0 = (Ret (Z.of_nat (length rs) + Z.of_nat (length q)), s0)
  /\ Len s1 = (Ret (Z.of_nat (length q)), s1).
Proof.
  intros s0 s1. subst s0 s1. split; [apply Get_n_reuse|].
  rewrite !Len_reads. cbn [pool rconns chan_len buf].
  rewrite length_app, length_map, Nat2Z.inj_add. split; reflexivity.
Qed.

Lemma room_full (ch : chanRpcAble) :
  cap ch <= Z.of_nat (length (buf ch)) -> room ch = 0%nat.
Proof. unfold room. lia. Qed.

Lemma room_push (ch : chanRpcAble) (x : RpcAble) :
  Z.of_nat (length (buf ch)) < cap ch ->
  room ch = S (room (mkChan (cap ch) (buf ch ++ [x]))).
Proof.
  unfold room. cbn [cap buf]. rewrite length_app. cbn [length]. lia.
Qed.

Lemma close_handles_saturate (rs : list Rconn) :
  forall (ch : chanRpcAble) (fo : option Factory) (w : World),
    run (close_handles rs) (mkStore (mkPool (Some ch) fo) w)
    = (Ret tt,
       mkStore
         (mkPool
            (Some (mkChan (cap ch)
                     (buf ch ++ map Some (firstn (room ch) rs)))) fo)
         (mkWorld (calls w) (closes w ++ skipn (room ch) rs))).
Proof.
  induction rs as [|r rs IH]; intros ch fo w.
  - rewrite firstn_nil, skipn_nil. cbn [map]. rewrite !app_nil_r.
    destruct ch, w. reflexivity.
  - unfold close_handles. cbn [map]. fold (close_handles rs).
    destruct (Z.lt_ge_cases (Z.of_nat (length (buf ch))) (cap ch)) as [H|H].
    + rewrite run_cons
        with (s1 := mkStore
                      (mkPool (Some (mkChan (cap ch) (buf ch ++ [Some r])))
                         fo) w).
      * rewrite IH. rewrite (room_push ch (Some r)) by exact H.
        cbn [firstn skipn map cap buf]. rewrite <- app_assoc. reflexivity.
      * cbn [step]. eapply bind_ret_tt.
        unfold wrapRconn. rewrite PoolRconn_Close_unmarked.
        rewrite (put_room r ch) by auto. reflexivity.
    + rewrite run_cons
        with (s1 := mkStore (mkPool (Some ch) fo) (note_close r w)).
      * rewrite IH. rewrite (room_full ch) by exact H.
        cbn [firstn skipn map note_close calls closes].
        rewrite <- app_assoc. reflexivity.
      * cbn [step]. eapply bind_ret_tt.
        unfold wrapRconn. rewrite PoolRconn_Close_unmarked.
        rewrite (put_full r ch) by auto. reflexivity.
Qed.

(** X8: returning many connections to an open pool.  When unmarked handles
    of the connections [rs] are closed one after the other, the first
    [room] of them, as many as the buffer has free slots, are appended to
    the buffer in that order, and each of the others has its underlying
    [Close] invoked, in that order; afterwards [Len] is the capacity when
    there were more handles than free slots. *)
Theorem close_handles_fill_then_evict (rs : list Rconn) (ch : chanRpcAble)
    (fo : option Factory) (w : World) :
  let s' := mkStore
              (mkPool
                 (Some (mkChan (cap ch)
                          (buf ch ++ map Some (firstn (room ch) rs)))) fo)
              (mkWorld (calls w) (closes w ++ skipn (room ch) rs)) in
  run (close_handles rs) (mkStore (mkPool (Some ch) fo) w) = (Ret tt, s')
  /\ (Z.of_nat (length (buf ch)) <= cap ch ->
      (room ch <= length rs)%nat ->
      Len s' = (Ret (cap ch), s')).
Proof.
  intros s'. split.
  - apply close_handles_saturate.
  - intros Hb Hr. subst s'. rewrite Len_reads.
    cbn [pool rconns chan_len buf]. rewrite length_app, length_map.
    rewrite firstn_length_le by exact Hr. unfold room. f_equal. f_equal.
    lia.
Qed.

(** X9: what is returned to an empty pool comes back in the same order.
    On an open pool with an empty buffer of capacity at least [length rs],
    closing unmarked handles of [rs] one after the other and then calling
    [Get] [length rs] times returns handles of [rs] in the order they were
    closed; no underlying [Close] and no factory call happens, and the
    buffer is empty again. *)
Theorem returned_then_Get_same_order (rs : list Rconn) (k : Z)
    (fo : option Factory) (w : World) :
  Z.of_nat (length rs) <= k ->
  let s0 := mkStore (mkPool (Some (mkChan k [])) fo) w in
  exists s1,
    run (close_handles rs) s0 = (Ret tt, s1)
    /\ Len s1 = (Ret (Z.of_nat (length rs)), s1)
    /\ Get_n (length rs) s1
       = (Ret (map (fun r => (Some (mkPoolRconn (Some r) false), None)) rs),
          s0).
Proof.
  intros Hk s0. subst s0. eexists. split; [apply close_handles_saturate|].
  assert (Hroom : (length rs <= room (mkChan k []))%nat).
  { unfold room. cbn [cap buf length]. lia. }
  rewrite firstn_all2, skipn_all2 by exact Hroom.
  cbn [cap buf app]. rewrite app_nil_r. split.
  - rewrite Len_reads. cbn [pool rconns chan_len buf].
    rewrite length_map. reflexivity.
  - rewrite <- (app_nil_r (map Some rs)). rewrite Get_n_reuse.
    destruct w. reflexivity.
Qed.

(** ** Eviction and shutdown *)

(** X10: a handle marked unusable is evicted.  On an open pool with
    connection [r] at the head of the buffer, [Get] returns a handle of
    [r]; after [MarkUnusable], closing the handle invokes the underlying
    [Close] of [r] once, returns its result and puts nothing back, so the
    buffer is the rest of the queue and [Len] is one less than before the
    [Get]. *)
Theorem marked_handle_is_evicted (k : Z) (r : Rconn) (q : list RpcAble)
    (fo : option Factory) (w : World) :
  let s0 := mkStore (mkPool (Some (mkChan k (Some r :: q))) fo) w in
  let s2 := mkStore (mkPool (Some (mkChan k q)) fo)
              (mkWorld (calls w) (closes w ++ [r])) in
  exists h s1,
    Get s0 = (Ret (Some h, None), s1)
    /\ PoolRconn_Close (MarkUnusable h) s1
       = (Ret (closeResult r (closes w)), s2)
    /\ Len s0 = (Ret (Z.of_nat (length q) + 1), s0)
    /\ Len s2 = (Ret (Z.of_nat (length q)), s2).
Proof.
  intros s0 s2. subst s0 s2. rewrite Get_reuse.
  eexists. eexists. split; [reflexivity|]. split; [reflexivity|].
  rewrite !Len_reads. cbn [pool rconns chan_len buf length].
  split; [|reflexivity]. f_equal. f_equal. lia.
Qed.

(** X11: a handle that is still out when the pool is shut down is
    destroyed when it is closed.  After [Get] took connection [r] from the
    buffer, the store's [Close] closes the connections left in the buffer;
    closing the unmarked handle afterwards invokes the underlying [Close]
    of [r], returns its result, and [Len] stays 0. *)
Theorem handle_closed_after_shutdown (k : Z) (r : Rconn) (q : list RpcAble)
    (fo : option Factory) (w : World) :
  ~ In None q ->
  let s0 := mkStore (mkPool (Some (mkChan k (Some r :: q))) fo) w in
  let s3 := mkStore (mkPool None None)
              (mkWorld (calls w) (closes w ++ conns q ++ [r])) in
  exists h s1 s2,
    Get s0 = (Ret (Some h, None), s1)
    /\ Close s1 = (Ret tt, s2)
    /\ PoolRconn_Close h s2
       = (Ret (closeResult r (closes w ++ conns q)), s3)
    /\ Len s3 = (Ret 0, s3).
Proof.
  intros Hq s0 s3. subst s0 s3. rewrite Get_reuse.
  eexists. eexists. eexists. split; [reflexivity|].
  rewrite Close_open by exact Hq. split; [reflexivity|].
  rewrite PoolRconn_Close_unmarked, put_closed by reflexivity.
  unfold note_close. cbn [pool env closes calls buf].
  rewrite <- app_assoc. split; reflexivity.
Qed.

Lemma drain_nil_entry (rs : list Rconn) (q : list RpcAble) (s : Store) :
  drain (map Some rs ++ None :: q) s
  = (Panic nil_deref,
     mkStore (pool s) (mkWorld (calls (env s)) (closes (env s) ++ rs))).
Proof.
  revert s. induction rs as [|r rs IH]; intros s; cbn [map app drain].
  - rewrite app_nil_r. destruct s as [p [n cl]]. reflexivity.
  - unfold bind at 1. cbn [rconn_Close]. rewrite IH.
    unfold note_close. cbn [pool env calls closes].
    rewrite <- app_assoc. reflexivity.
Qed.

(** X12: a nil entry in the buffer stops the shutdown half way.  When the
    buffer holds the connections [rs], then a nil entry, then [q], the
    store's [Close] clears the channel and the factory, invokes the
    underlying [Close] of [rs] in order and panics at the nil entry: the
    connections of [q] are not closed. *)
Theorem Close_panics_at_nil_entry (k : Z) (rs : list Rconn)
    (q : list RpcAble) (fo : option Factory) (w : World) :
  Close (mkStore (mkPool (Some (mkChan k (map Some rs ++ None :: q))) fo) w)
  = (Panic nil_deref,
     mkStore (mkPool None None) (mkWorld (calls w) (closes w ++ rs))).
Proof.
  unfold Close, bind; cbn [load_rconns store_rconns store_factory pool
    rconns factory env buf]. rewrite drain_nil_entry. reflexivity.
Qed.

(** ** What a call may do to the outside world *)

Lemma drain_world (l : list RpcAble) (s : Store) :
  calls (env (snd (drain l s))) = calls (env s)
  /\ exists l', closes (env (snd (drain l s))) = closes (env s) ++ l'.
Proof.
  revert s. induction l as [|[r|] l IH]; intros s; cbn [drain].
  - split; [reflexivity|]. exists []. rewrite app_nil_r. reflexivity.
  - unfold bind; cbn [rconn_Close].
    destruct (IH (mkStore (pool s) (note_close r (env s)))) as (Hc & l' & Hl).
    split; [exact Hc|]. exists (r :: l'). rewrite Hl.
    unfold note_close. cbn [env closes]. rewrite <- app_assoc. reflexivity.
  - split; [reflexivity|]. exists []. rewrite app_nil_r. reflexivity.
Qed.

Lemma put_world (x : RpcAble) (s : Store) :
  calls (env (snd (put x s))) = calls (env s)
  /\ exists l, (length l <= 1)%nat
          /\ closes (env (snd (put x s))) = closes (env s) ++ l.
Proof.
  assert (Hsame : forall w : World,
             calls w = calls w
             /\ exists l, (length l <= 1)%nat /\ closes w = closes w ++ l).
  { intros w. split; [reflexivity|]. exists [].
    rewrite app_nil_r. auto. }
  destruct x as [r|]; [|rewrite put_nil; apply Hsame].
  assert (Hclose : calls (note_close r (env s)) = calls (env s)
             /\ exists l, (length l <= 1)%nat
                     /\ closes (note_close r (env s)) = closes (env s) ++ l).
  { split; [reflexivity|]. exists [r]. auto. }
  destruct (rconns (pool s)) as [ch|] eqn:E.
  - destruct (Z.lt_ge_cases (Z.of_nat (length (buf ch))) (cap ch)).
    + rewrite (put_room r ch) by auto. apply Hsame.
    + rewrite (put_full r ch) by auto. exact Hclose.
  - rewrite put_closed by exact E. exact Hclose.
Qed.

Lemma step_world (o : Op) (s : Store) :
  (calls (env s) <= calls (env (snd (step o s)))
   <= calls (env s) + (if is_get o then 1 else 0))%nat
  /\ exists l, closes (env (snd (step o s))) = closes (env s) ++ l.
Proof.
  destruct o; cbn [step is_get]; rewrite ?snd_bind_ret.
  - destruct s as [[[[k [|[r|] q]]|] [f|]] w];
      rewrite ?Get_closed, ?Get_nil_head, ?Get_reuse, ?Get_create,
        ?Get_nil_factory; cbn [snd env note_call calls closes];
      (split; [lia|exists []; rewrite app_nil_r; reflexivity]).
  - destruct (put_world rconn s) as (Hc & l & _ & Hl).
    split; [lia|eauto].
  - destruct p as [x [|]].
    + destruct x as [r|]; cbn; (split; [lia|]).
      * exists [r]. reflexivity.
      * exists []. rewrite app_nil_r. reflexivity.
    + rewrite PoolRconn_Close_unmarked.
      destruct (put_world x s) as (Hc & l & _ & Hl). split; [lia|eauto].
  - destruct s as [[[ch|] fo] w]; unfold Close, bind;
      cbn [load_rconns store_rconns store_factory pool rconns factory env].
    + destruct (drain_world (buf ch) (mkStore (mkPool None None) w))
        as (Hc & l & Hl).
      cbn [env] in *. split; [lia|eauto].
    + cbn. split; [lia|]. exists []. rewrite app_nil_r. reflexivity.
  - cbn. split; [lia|]. exists []. rewrite app_nil_r. reflexivity.
Qed.

(** X13: only [Get] invokes the factory, and at most once per call.  Over
    any program of calls the number of factory invocations grows by at most
    the number of [Get] calls in the program and never shrinks, and the log
    of underlying [Close] calls is only ever extended. *)
Theorem factory_invoked_only_by_Get (ops : list Op) (s : Store) :
  (calls (env s) <= calls (env (snd (run ops s)))
   <= calls (env s) + length (filter is_get ops))%nat
  /\ exists l, closes (env (snd (run ops s))) = closes (env s) ++ l.
Proof.
  revert s. induction ops as [|o ops IH]; intros s.
  - cbn. split; [lia|]. exists []. rewrite app_nil_r. reflexivity.
  - destruct (step_world o s) as (Hc & l & Hl).
    cbn [run filter]. unfold bind.
    destruct (step o s) as [[[]| |] s1]; cbn [snd] in *.
    + destruct (IH s1) as (Hc' & l' & Hl'). split.
      * destruct (is_get o); cbn [length]; lia.
      * exists (l ++ l'). rewrite Hl', Hl, app_assoc. reflexivity.
    + split; [destruct (is_get o); cbn [length]; lia|eauto].
    + split; [destruct (is_get o); cbn [length]; lia|eauto].
Qed.

(** X14: a freshly built pool hands out what the constructor made, in the
    order it was made.  With valid capacities and a factory whose first
    [initialCap] calls return the connections [rs] without error, that many
    calls of [Get] on the new pool return handles of [rs] in creation order
    without a further factory call and leave [Len] at 0; one more [Get]
    invokes the factory once and returns its result. *)
Theorem constructed_pool_drains_in_order (initialCap maxCap : Z)
    (f : Factory) (w : World) (rs : list Rconn) :
  0 <= initialCap <= maxCap ->
  0 < maxCap ->
  (forall i, (i < Z.to_nat initialCap)%nat -> snd (f (later i w)) = None) ->
  minted f w (Z.to_nat initialCap) = map Some rs ->
  let w1 := later (Z.to_nat initialCap) w in
  let drained := mkStore (mkPool (Some (mkChan maxCap [])) (Some f)) w1 in
  exists c,
    NewChannelPool initialCap maxCap (Some f) w = (Ret (Some c, None), w1)
    /\ Get_n (length rs) (mkStore c w1)
       = (Ret (map (fun r => (Some (mkPoolRconn (Some r) false), None)) rs),
          drained)
    /\ Len drained = (Ret 0, drained)
    /\ Get drained
       = (match snd (f w1) with
          | Some e => Ret (None, Some e)
          | None => Ret (Some (mkPoolRconn (fst (f w1)) false), None)
          end,
          mkStore (pool drained) (later (S (Z.to_nat initialCap)) w)).
Proof.
  intros Hic Hmc Hok Hrs w1 drained. subst w1 drained.
  rewrite NewChannelPool_valid by assumption.
  rewrite (fill_succeeds f _ _ (mkChan maxCap []))
    by (cbn [pool env rconns cap buf length]; auto; lia).
  cbn [pool env cap buf factory app]. rewrite Hrs.
  eexists. split; [reflexivity|]. split.
  - rewrite <- (app_nil_r (map Some rs)). apply Get_n_reuse.
  - split; [reflexivity|]. rewrite Get_create. reflexivity.
Qed.

End Pool.

(** ** Concrete runs *)

Lemma Get_case_analysis_witness :
  has_factory (pool one_idle)
  /\ exists v s', Get one_idle = (Ret v, s').
Proof.
  assert (H : has_factory (pool one_idle)) by (simpl; discriminate).
  split; [exact H|].
  exact (proj2 (proj2 (proj2 (proj2 (proj2 Get_case_analysis)))) one_idle H).
Defined.

Lemma put_trichotomy_witness :
  put quiet (Some 9%nat) shut
  = (Ret None, mkStore (mkPool None None) (mkWorld 0 [9%nat]))
  /\ put quiet (Some 9%nat) two_idle
     = (Ret None, mkStore (pool two_idle) (mkWorld 0 [9%nat]))
  /\ put quiet (Some 9%nat) one_idle
     = (Ret None,
        mkStore (mkPool (Some (mkChan 2 [Some 7%nat; Some 9%nat])) (Some fresh))
          w0).
Proof.
  destruct (put_trichotomy quiet) as (_ & Hshut & Hfull & Hroom).
  split; [|split].
  - apply (Hshut 9%nat shut). reflexivity.
  - apply (Hfull 9%nat (mkChan 2 [Some 7%nat; Some 8%nat]) two_idle).
    + reflexivity.
    + simpl. lia.
  - apply (Hroom 9%nat (mkChan 2 [Some 7%nat]) one_idle).
    + reflexivity.
    + simpl. lia.
Defined.

Lemma Close_drains_each_slot_witness :
  ~ In None [Some 7%nat; Some 8%nat]
  /\ NoDup [Some 7%nat; Some 8%nat]
  /\ Close quiet two_idle
     = (Ret tt, mkStore (mkPool None None) (mkWorld 0 [7%nat; 8%nat]))
  /\ count_occ Nat.eq_dec [7%nat; 8%nat] 8%nat = 1%nat.
Proof.
  assert (Hnil : ~ In None [Some 7%nat; Some 8%nat]).
  { simpl. intros [H|[H|[]]]; discriminate. }
  assert (Hnd : NoDup [Some 7%nat; Some 8%nat]).
  { repeat constructor; simpl; intuition discriminate. }
  destruct (Close_drains_each_slot quiet (mkChan 2 [Some 7%nat; Some 8%nat])
              (Some fresh) w0) as (Hret & _ & _ & _ & _ & Honce).
  split; [exact Hnil|]. split; [exact Hnd|]. split.
  - apply Hret. exact Hnil.
  - apply (Honce Hnd 8%nat). simpl. auto.
Defined.

Lemma Len_never_exceeds_maxCap_witness :
  NewChannelPool quiet 2 2 (Some fresh) w0
  = (Ret (Some (mkPool (Some (mkChan 2 [Some 0%nat; Some 1%nat]))
                  (Some fresh)), None),
     mkWorld 2 [])
  /\ exists n,
      Len (snd (run quiet [OpGet; OpPut (Some 5%nat); OpPut (Some 6%nat)]
                  (mkStore (mkPool (Some (mkChan 2 [Some 0%nat; Some 1%nat]))
                              (Some fresh)) (mkWorld 2 []))))
      = (Ret n,
         snd (run quiet [OpGet; OpPut (Some 5%nat); OpPut (Some 6%nat)]
                (mkStore (mkPool (Some (mkChan 2 [Some 0%nat; Some 1%nat]))
                            (Some fresh)) (mkWorld 2 []))))
      /\ 0 <= n <= 2.
Proof.
  assert (H : NewChannelPool quiet 2 2 (Some fresh) w0
              = (Ret (Some (mkPool (Some (mkChan 2 [Some 0%nat; Some 1%nat]))
                              (Some fresh)), None),
                 mkWorld 2 [])) by reflexivity.
  split; [exact H|].
  exact (proj1 (Len_never_exceeds_maxCap quiet 2 2 (Some fresh) w0 _ _ H
                  [OpGet; OpPut (Some 5%nat); OpPut (Some 6%nat)])).
Defined.

Lemma Get_then_Close_Len_witness :
  Z.of_nat (length [Some 7%nat; Some 8%nat]) <= 2
  /\ exists h s1 s2,
      Get two_idle = (Ret (Some h, None), s1)
      /\ unusable h = false
      /\ PoolRconn_Close quiet h s1 = (Ret None, s2)
      /\ fst (Len s2) = fst (Len two_idle)
      /\ env s2 = w0.
Proof.
  assert (H : Z.of_nat (length [Some 7%nat; Some 8%nat]) <= 2)
    by (simpl; lia).
  split; [exact H|].
  exact (proj1 (Get_then_Close_Len quiet 2 (Some fresh) w0)
           7%nat [Some 8%nat] H).
Defined.

Lemma NewChannelPool_invalid_witness :
  (3 < 0 \/ 2 <= 0 \/ 3 > 2)
  /\ NewChannelPool quiet 3 2 (Some fresh) w0
     = (Ret (None, Some "invalid capacity settings"%string), w0).
Proof.
  assert (H : 3 < 0 \/ 2 <= 0 \/ 3 > 2) by (right; right; lia).
  split; [exact H|].
  exact (NewChannelPool_invalid quiet 3 2 (Some fresh) w0 H).
Defined.

Lemma PoolRconn_Close_twice_witness :
  Z.of_nat (length (@nil RpcAble)) + 2 <= 2
  /\ exists s1 s2,
      PoolRconn_Close quiet (mkPoolRconn (Some 7%nat) false)
        (mkStore (mkPool (Some (mkChan 2 [])) (Some fresh)) w0)
      = (Ret None, s1)
      /\ PoolRconn_Close quiet (mkPoolRconn (Some 7%nat) false) s1
         = (Ret None, s2)
      /\ s2 = mkStore
               (mkPool (Some (mkChan 2 [Some 7%nat; Some 7%nat])) (Some fresh))
               w0
      /\ Len (mkStore (mkPool (Some (mkChan 2 [])) (Some fresh)) w0)
         = (Ret 0, mkStore (mkPool (Some (mkChan 2 [])) (Some fresh)) w0)
      /\ Len s2 = (Ret 2, s2).
Proof.
  assert (H : Z.of_nat (length (@nil RpcAble)) + 2 <= 2) by (simpl; lia).
  split; [exact H|].
  exact (PoolRconn_Close_twice quiet 7%nat (mkChan 2 []) (Some fresh) w0 H).
Defined.

Lemma buffer_never_holds_nil_witness :
  honest fresh
  /\ NewChannelPool quiet 2 2 (Some fresh) w0
     = (Ret (Some (mkPool (Some (mkChan 2 [Some 0%nat; Some 1%nat]))
                     (Some fresh)), None),
        mkWorld 2 [])
  /\ ~ In None [Some 1%nat; Some 5%nat].
Proof.
  assert (Hf : honest fresh) by (intros w' _; simpl; discriminate).
  assert (H : NewChannelPool quiet 2 2 (Some fresh) w0
              = (Ret (Some (mkPool (Some (mkChan 2 [Some 0%nat; Some 1%nat]))
                              (Some fresh)), None),
                 mkWorld 2 [])) by reflexivity.
  split; [exact Hf|]. split; [exact H|].
  apply (buffer_never_holds_nil quiet 2 2 fresh w0 _ _ Hf H
           [OpGet; OpPut None; OpPut (Some 5%nat)]
           (mkChan 2 [Some 1%nat; Some 5%nat])).
  reflexivity.
Defined.

(** ** Runs on which the code departs from a claim *)

(** C3 fails as stated: a pool of capacity 2 is built empty, one [Get]
    creates connection 0, and its handle is closed twice.  Both closes put
    connection 0 in the buffer, and the shutdown then invokes the underlying
    [Close] of connection 0 twice, not once. *)
Lemma Close_twice_for_duplicate :
  exists c w1 h s1 s2 s3 s4,
    NewChannelPool quiet 0 2 (Some fresh) w0 = (Ret (Some c, None), w1)
    /\ Get (mkStore c w1) = (Ret (Some h, None), s1)
    /\ PoolRconn_Close quiet h s1 = (Ret None, s2)
    /\ PoolRconn_Close quiet h s2 = (Ret None, s3)
    /\ rconns (pool s3) = Some (mkChan 2 [Some 0%nat; Some 0%nat])
    /\ closes (env s3) = []
    /\ Close quiet s3 = (Ret tt, s4)
    /\ closes (env s4) = [0%nat; 0%nat]
    /\ count_occ Nat.eq_dec (closes (env s4)) 0%nat <> 1%nat.
Proof.
  do 7 eexists.
  repeat apply conj; try reflexivity.
  simpl. discriminate.
Qed.

(** C7 fails as stated: on a pool built empty with capacity 1 and a
    succeeding factory, [Len] is 0; [Get] creates connection 0, closing the
    returned handle puts it in the buffer, and [Len] is then 1. *)
Lemma Get_then_Close_grows_empty_pool :
  exists c w1 h s1 s2,
    NewChannelPool quiet 0 1 (Some fresh) w0 = (Ret (Some c, None), w1)
    /\ Len (mkStore c w1) = (Ret 0, mkStore c w1)
    /\ Get (mkStore c w1) = (Ret (Some h, None), s1)
    /\ unusable h = false
    /\ PoolRconn_Close quiet h s1 = (Ret None, s2)
    /\ Len s2 = (Ret 1, s2)
    /\ fst (Len s2) <> fst (Len (mkStore c w1)).
Proof.
  do 5 eexists.
  repeat apply conj; try reflexivity.
  simpl. discriminate.
Qed.

(** ** Concrete runs of the constructor and of client programs *)

Lemma NewChannelPool_fills_witness :
  0 <= 2 <= 3
  /\ 0 < 3
  /\ (forall i, (i < Z.to_nat 2)%nat -> snd (fresh (later i w0)) = None)
  /\ NewChannelPool quiet 2 3 (Some fresh) w0
     = (Ret (Some (mkPool (Some (mkChan 3 [Some 0%nat; Some 1%nat]))
                     (Some fresh)), None),
        mkWorld 2 []).
Proof.
  assert (H1 : 0 <= 2 <= 3) by lia.
  assert (H2 : 0 < 3) by lia.
  assert (H3 : forall i, (i < Z.to_nat 2)%nat ->
                    snd (fresh (later i w0)) = None)
    by (intros i _; reflexivity).
  split; [exact H1|]. split; [exact H2|]. split; [exact H3|].
  exact (proj1 (NewChannelPool_fills quiet 2 3 fresh w0 H1 H2 H3)).
Defined.

Lemma NewChannelPool_factory_fails_witness :
  0 <= 3 <= 3
  /\ 0 < 3
  /\ (2 < Z.to_nat 3)%nat
  /\ (forall i, (i < 2)%nat -> snd (flaky (later i w0)) = None)
  /\ snd (flaky (later 2 w0)) = Some "dial refused"%string
  /\ ~ In None (minted flaky w0 2)
  /\ NewChannelPool quiet 3 3 (Some flaky) w0
     = (Ret (None,
             Some "factory is not able to fill the pool: dial refused"%string),
        mkWorld 3 [0%nat; 1%nat]).
Proof.
  assert (H1 : 0 <= 3 <= 3) by lia.
  assert (H2 : 0 < 3) by lia.
  assert (H3 : (2 < Z.to_nat 3)%nat) by (vm_compute; lia).
  assert (H4 : forall i, (i < 2)%nat -> snd (flaky (later i w0)) = None).
  { intros i Hi. destruct i as [|[|i]]; [reflexivity|reflexivity|lia]. }
  assert (H5 : snd (flaky (later 2 w0)) = Some "dial refused"%string)
    by reflexivity.
  assert (H6 : ~ In None (minted flaky w0 2)).
  { simpl. intros [H|[H|[]]]; discriminate. }
  repeat (split; [assumption|]).
  exact (NewChannelPool_factory_fails quiet 3 3 flaky w0 2 _ H1 H2 H3 H4 H5 H6).
Defined.

Lemma NewChannelPool_nil_factory_witness :
  0 <= 1 <= 2
  /\ 0 < 2
  /\ NewChannelPool quiet 1 2 None w0 = (Panic nil_deref, w0).
Proof.
  assert (H1 : 0 <= 1 <= 2) by lia.
  assert (H2 : 0 < 2) by lia.
  split; [exact H1|]. split; [exact H2|].
  exact (NewChannelPool_nil_factory quiet 1 2 w0 H1 H2).
Defined.

Lemma constructed_pool_never_panics_witness :
  honest fresh
  /\ NewChannelPool quiet 2 2 (Some fresh) w0
     = (Ret (Some (mkPool (Some (mkChan 2 [Some 0%nat; Some 1%nat]))
                     (Some fresh)), None),
        mkWorld 2 [])
  /\ exists s',
      run quiet [OpGet; OpClose; OpGet; OpPut (Some 0%nat)]
        (mkStore (mkPool (Some (mkChan 2 [Some 0%nat; Some 1%nat]))
                    (Some fresh)) (mkWorld 2 []))
      = (Ret tt, s').
Proof.
  assert (Hf : honest fresh) by (intros w' _; simpl; discriminate).
  assert (H : NewChannelPool quiet 2 2 (Some fresh) w0
              = (Ret (Some (mkPool (Some (mkChan 2 [Some 0%nat; Some 1%nat]))
                              (Some fresh)), None),
                 mkWorld 2 [])) by reflexivity.
  split; [exact Hf|]. split; [exact H|].
  exact (constructed_pool_never_panics quiet 2 2 fresh w0 _ _ Hf H
           [OpGet; OpClose; OpGet; OpPut (Some 0%nat)]).
Defined.

Lemma closed_pool_stays_closed_witness :
  rconns (pool shut) = None
  /\ exists s',
      run quiet [OpGet; OpPut (Some 3%nat); OpClose] shut = (Ret tt, s')
      /\ rconns (pool s') = None
      /\ calls (env s') = calls (env shut)
      /\ Len s' = (Ret 0, s')
      /\ Get s' = (Ret (None, ErrClosed), s').
Proof.
  assert (H : rconns (pool shut) = None) by reflexivity.
  split; [exact H|].
  exact (closed_pool_stays_closed quiet shut
           [OpGet; OpPut (Some 3%nat); OpClose] H).
Defined.

Lemma close_handles_fill_then_evict_witness :
  Z.of_nat (length [Some 7%nat]) <= 2
  /\ (room (mkChan 2 [Some 7%nat]) <= length [1%nat; 2%nat; 3%nat])%nat
  /\ Len (mkStore
            (mkPool (Some (mkChan 2 [Some 7%nat; Some 1%nat])) (Some fresh))
            (mkWorld 0 [2%nat; 3%nat]))
     = (Ret 2,
        mkStore
          (mkPool (Some (mkChan 2 [Some 7%nat; Some 1%nat])) (Some fresh))
          (mkWorld 0 [2%nat; 3%nat])).
Proof.
  assert (H1 : Z.of_nat (length [Some 7%nat]) <= 2) by (simpl; lia).
  assert (H2 : (room (mkChan 2 [Some 7%nat])
                <= length [1%nat; 2%nat; 3%nat])%nat)
    by (vm_compute; lia).
  split; [exact H1|]. split; [exact H2|].
  exact (proj2 (close_handles_fill_then_evict quiet [1%nat; 2%nat; 3%nat]
                  (mkChan 2 [Some 7%nat]) (Some fresh) w0) H1 H2).
Defined.

Lemma returned_then_Get_same_order_witness :
  Z.of_nat (length [4%nat; 5%nat]) <= 2
  /\ exists s1,
      run quiet (close_handles [4%nat; 5%nat])
        (mkStore (mkPool (Some (mkChan 2 [])) (Some fresh)) w0)
      = (Ret tt, s1)
      /\ Len s1 = (Ret 2, s1)
      /\ Get_n 2 s1
         = (Ret [(Some (mkPoolRconn (Some 4%nat) false), None);
                 (Some (mkPoolRconn (Some 5%nat) false), None)],
            mkStore (mkPool (Some (mkChan 2 [])) (Some fresh)) w0).
Proof.
  assert (H : Z.of_nat (length [4%nat; 5%nat]) <= 2) by (simpl; lia).
  split; [exact H|].
  exact (returned_then_Get_same_order quiet [4%nat; 5%nat] 2 (Some fresh)
           w0 H).
Defined.

Lemma handle_closed_after_shutdown_witness :
  ~ In None [Some 8%nat]
  /\ exists h s1 s2,
      Get two_idle = (Ret (Some h, None), s1)
      /\ Close quiet s1 = (Ret tt, s2)
      /\ PoolRconn_Close quiet h s2
         = (Ret None,
            mkStore (mkPool None None) (mkWorld 0 [8%nat; 7%nat]))
      /\ Len (mkStore (mkPool None None) (mkWorld 0 [8%nat; 7%nat]))
         = (Ret 0, mkStore (mkPool None None) (mkWorld 0 [8%nat; 7%nat])).
Proof.
  assert (H : ~ In None [Some 8%nat]).
  { simpl. intros [E|[]]. discriminate. }
  split; [exact H|].
  exact (handle_closed_after_shutdown quiet 2 7%nat [Some 8%nat] (Some fresh)
           w0 H).
Defined.

Lemma constructed_pool_drains_in_order_witness :
  0 <= 2 <= 3
  /\ 0 < 3
  /\ (forall i, (i < Z.to_nat 2)%nat -> snd (fresh (later i w0)) = None)
  /\ minted fresh w0 (Z.to_nat 2) = map Some [0%nat; 1%nat]
  /\ exists c,
      NewChannelPool quiet 2 3 (Some fresh) w0
      = (Ret (Some c, None), mkWorld 2 [])
      /\ Get_n 2 (mkStore c (mkWorld 2 []))
         = (Ret [(Some (mkPoolRconn (Some 0%nat) false), None);
                 (Some (mkPoolRconn (Some 1%nat) false), None)],
            mkStore (mkPool (Some (mkChan 3 [])) (Some fresh)) (mkWorld 2 []))
      /\ Len (mkStore (mkPool (Some (mkChan 3 [])) (Some fresh))
                (mkWorld 2 []))
         = (Ret 0,
            mkStore (mkPool (Some (mkChan 3 [])) (Some fresh)) (mkWorld 2 []))
      /\ Get (mkStore (mkPool (Some (mkChan 3 [])) (Some fresh))
                (mkWorld 2 []))
         = (Ret (Some (mkPoolRconn (Some 2%nat) false), None),
            mkStore (mkPool (Some (mkChan 3 [])) (Some fresh)) (mkWorld 3 [])).
Proof.
  assert (H1 : 0 <= 2 <= 3) by lia.
  assert (H2 : 0 < 3) by lia.
  assert (H3 : forall i, (i < Z.to_nat 2)%nat ->
                    snd (fresh (later i w0)) = None)
    by (intros i _; reflexivity).
  assert (H4 : minted fresh w0 (Z.to_nat 2) = map Some [0%nat; 1%nat])
    by reflexivity.
  split; [exact H1|]. split; [exact H2|]. split; [exact H3|].
  split; [exact H4|].
  exact (constructed_pool_drains_in_order quiet 2 3 fresh w0 [0%nat; 1%nat]
           H1 H2 H3 H4).
Defined.
